(** * FaaSr integration-test framework: object-store adapter, function log
      monitor and workflow monitor.

Shallow embedding of
  - framework/s3_client.py             (module [S3Client]),
  - framework/faasr_function_logger.py (module [FunctionLogger]),
  - framework/workflow_runner.py       (module [WorkflowRunner]),
followed by the properties established about them. *)

From Stdlib Require Import ZArith Lia Ascii String.
From stdpp Require Import gmap strings list fin_maps pretty.

Local Open Scope string_scope.

(** Outcome of a Python call: a value, or an exception that leaves the
    call. *)
Inductive Result (E A : Type) : Type :=
| Value (a : A)
| Raises (e : E).
Arguments Value {E A} a.
Arguments Raises {E A} e.

(* ===================================================================== *)
(** ** framework/s3_client.py *)
(* ===================================================================== *)
Module S3Client.

(** What a call on the wrapped boto3 client does: it returns, it raises
    [botocore.exceptions.ClientError] (whose [response["Error"]["Code"]] is
    [code]), or it raises some other [Exception]. *)
Inductive Response (A : Type) : Type :=
| Returned (a : A)
| ClientError (code : string)
| OtherException (what : string).
Arguments Returned {A} a.
Arguments ClientError {A} code.
Arguments OtherException {A} what.

(** The f-string prefixes of the messages given to [S3ClientError]. *)
Inductive Message : Type :=
| Error_checking_object_existence
| Object_does_not_exist
| Boto3_client_error_getting_object
| Unhandled_error_getting_object.

(** Exceptions leaving the adapter: its own [S3ClientError], or an exception
    of the wrapped client that no [except] clause matched. *)
Inductive Exn : Type :=
| S3ClientError (message : Message) (cause : string)
| Uncaught (what : string).

(** [FaaSrS3Client]: the wrapped client and the bucket name.  [head_object]
    stands for [self._client.head_object(Bucket=.., Key=..)], and
    [get_object_body] for the whole expression
    [self._client.get_object(Bucket=.., Key=..)["Body"].read().decode(encoding)]. *)
Record FaaSrS3Client : Type := {
  _bucket_name : string;
  head_object : string -> string -> Response unit;
  get_object_body : string -> string -> Response string
}.

Definition object_exists (self : FaaSrS3Client) (key : string) : Result Exn bool :=
  match head_object self (_bucket_name self) key with
  | ClientError code =>
      if String.eqb code "404" then Value false
      else Raises (S3ClientError Error_checking_object_existence code)
  | OtherException what => Raises (Uncaught what)
  | Returned _ => Value true
  end.

Definition get_object (self : FaaSrS3Client) (key : string) : Result Exn string :=
  match get_object_body self (_bucket_name self) key with
  | Returned content => Value content
  | ClientError code =>
      if String.eqb code "404" then Raises (S3ClientError Object_does_not_exist code)
      else Raises (S3ClientError Boto3_client_error_getting_object code)
  | OtherException what => Raises (S3ClientError Unhandled_error_getting_object what)
  end.

End S3Client.

(* ===================================================================== *)
(** ** framework/faasr_function_logger.py *)
(* ===================================================================== *)
Module FunctionLogger.

Inductive LogEvent : Type := LOG_CREATED | LOG_UPDATED | LOG_COMPLETE.

Global Instance LogEvent_eq_dec : EqDecision LogEvent.
Proof. solve_decision. Defined.

(** One call of [_call_callbacks]: the event handed to every registered
    callback, with the buffer a callback reads through [logs] at that
    moment. *)
Record Delivery : Type := {
  event : LogEvent;
  visible_logs : list string
}.

(** The fields of [FaaSrFunctionLogger] that [_run] reads or writes.
    [logs_key] is the value of the property of that name; [delivered] lists
    the calls of [_call_callbacks], oldest first; [console] is what
    [self.logger.info] printed when [stream_logs] is set. *)
Record FaaSrFunctionLogger : Type := {
  logs_key : string;
  stream_logs : bool;
  _logs : list string;
  _logs_started : bool;
  _logs_complete : bool;
  _stop_requested : bool;
  delivered : list Delivery;
  console : list string
}.

Definition new (key : string) (stream : bool) : FaaSrFunctionLogger :=
  {| logs_key := key; stream_logs := stream; _logs := [];
     _logs_started := false; _logs_complete := false;
     _stop_requested := false; delivered := []; console := [] |}.

(** Characters removed by [str.strip()] (those with [isspace()] among the
    first 256 code points). *)
Definition isspace (c : ascii) : bool :=
  let n := nat_of_ascii c in
  (((9 <=? n) && (n <=? 13)) || ((28 <=? n) && (n <=? 32))
   || (n =? 133) || (n =? 160))%nat.

Fixpoint lstrip (s : string) : string :=
  match s with
  | EmptyString => EmptyString
  | String c s' => if isspace c then lstrip s' else s
  end.

Fixpoint rstrip (s : string) : string :=
  match s with
  | EmptyString => EmptyString
  | String c s' =>
      match rstrip s' with
      | EmptyString => if isspace c then EmptyString else String c EmptyString
      | r => String c r
      end
  end.

Definition strip (s : string) : string := rstrip (lstrip s).

(** [s.split(sep)] for a one-character separator: never the empty list. *)
Fixpoint split (sep : ascii) (s : string) : list string :=
  match s with
  | EmptyString => [EmptyString]
  | String c s' =>
      if Ascii.eqb c sep then EmptyString :: split sep s'
      else match split sep s' with
           | [] => [String c EmptyString]
           | line :: lines => String c line :: lines
           end
  end.

Definition newline : ascii := ascii_of_nat 10.

Definition parse_lines (content : string) : list string :=
  split newline (strip content).

Definition _update_logs (new_logs : list string) (self : FaaSrFunctionLogger) : FaaSrFunctionLogger :=
  {| logs_key := logs_key self; stream_logs := stream_logs self;
     _logs := _logs self ++ new_logs;
     _logs_started := _logs_started self; _logs_complete := _logs_complete self;
     _stop_requested := _stop_requested self;
     delivered := delivered self; console := console self |}.

Definition _set_logs_started (self : FaaSrFunctionLogger) : FaaSrFunctionLogger :=
  {| logs_key := logs_key self; stream_logs := stream_logs self;
     _logs := _logs self;
     _logs_started := true; _logs_complete := _logs_complete self;
     _stop_requested := _stop_requested self;
     delivered := delivered self; console := console self |}.

Definition _set_logs_complete (self : FaaSrFunctionLogger) : FaaSrFunctionLogger :=
  {| logs_key := logs_key self; stream_logs := stream_logs self;
     _logs := _logs self;
     _logs_started := _logs_started self; _logs_complete := true;
     _stop_requested := _stop_requested self;
     delivered := delivered self; console := console self |}.

Definition _call_callbacks (ev : LogEvent) (self : FaaSrFunctionLogger) : FaaSrFunctionLogger :=
  {| logs_key := logs_key self; stream_logs := stream_logs self;
     _logs := _logs self;
     _logs_started := _logs_started self; _logs_complete := _logs_complete self;
     _stop_requested := _stop_requested self;
     delivered := delivered self ++ [ {| event := ev; visible_logs := _logs self |} ];
     console := console self |}.

Definition echo (lines : list string) (self : FaaSrFunctionLogger) : FaaSrFunctionLogger :=
  {| logs_key := logs_key self; stream_logs := stream_logs self;
     _logs := _logs self;
     _logs_started := _logs_started self; _logs_complete := _logs_complete self;
     _stop_requested := _stop_requested self;
     delivered := delivered self; console := console self ++ lines |}.

(** [stop()]: called from another thread. *)
Definition stop (self : FaaSrFunctionLogger) : FaaSrFunctionLogger :=
  {| logs_key := logs_key self; stream_logs := stream_logs self;
     _logs := _logs self;
     _logs_started := _logs_started self; _logs_complete := _logs_complete self;
     _stop_requested := true;
     delivered := delivered self; console := console self |}.

Definition _check_for_logs (s3 : S3Client.FaaSrS3Client) (self : FaaSrFunctionLogger)
  : Result S3Client.Exn bool :=
  S3Client.object_exists s3 (logs_key self).

Definition _get_logs (s3 : S3Client.FaaSrS3Client) (self : FaaSrFunctionLogger)
  : Result S3Client.Exn (list string) :=
  match S3Client.get_object s3 (logs_key self) with
  | Value content => Value (parse_lines content)
  | Raises e => Raises e
  end.

(** The lines after the first [n]: [log_content[n:]]. *)
Definition new_suffix (self : FaaSrFunctionLogger) (log_content : list string) : list string :=
  drop (length (_logs self)) log_content.

Definition is_empty {A} (l : list A) : bool :=
  match l with [] => true | _ => false end.

(** One evaluation of the [while] condition of [_run] followed, when it
    holds, by one execution of the loop body against the store as it is
    during that cycle.  Once [logs_complete] holds the loop has been left
    and nothing happens any more. *)
Definition poll (s3 : S3Client.FaaSrS3Client) (self : FaaSrFunctionLogger)
  : Result S3Client.Exn FaaSrFunctionLogger :=
  if _logs_complete self then Value self
  else if negb (_logs_started self) then
    match _check_for_logs s3 self with
    | Raises e => Raises e
    | Value true => Value (_call_callbacks LOG_CREATED (_set_logs_started self))
    | Value false => Value self
    end
  else
    match _get_logs s3 self with
    | Raises e => Raises e
    | Value log_content =>
        let new_logs := new_suffix self log_content in
        let self1 :=
          if is_empty new_logs then self
          else
            let updated := _call_callbacks LOG_UPDATED (_update_logs new_logs self) in
            if stream_logs updated then echo new_logs updated else updated in
        let self2 :=
          if _stop_requested self1 && is_empty new_logs
          then _call_callbacks LOG_COMPLETE (_set_logs_complete self1)
          else self1 in
        Value self2
    end.

(** What happens to a logger over time: poll cycles of its own thread, each
    against the store of that moment, and calls of [stop()] by its owner. *)
Inductive Action : Type :=
| Poll (s3 : S3Client.FaaSrS3Client)
| Stop.

Definition act (a : Action) (self : FaaSrFunctionLogger)
  : Result S3Client.Exn FaaSrFunctionLogger :=
  match a with
  | Poll s3 => poll s3 self
  | Stop => Value (stop self)
  end.

(** The thread dies with the first exception that leaves [_run]. *)
Fixpoint run (schedule : list Action) (self : FaaSrFunctionLogger)
  : Result S3Client.Exn FaaSrFunctionLogger :=
  match schedule with
  | [] => Value self
  | a :: rest =>
      match act a self with
      | Value self' => run rest self'
      | Raises e => Raises e
      end
  end.

(** The states after each action of a schedule, up to the first
    exception. *)
Fixpoint history (schedule : list Action) (self : FaaSrFunctionLogger)
  : list FaaSrFunctionLogger :=
  match schedule with
  | [] => []
  | a :: rest =>
      match act a self with
      | Value self' => self' :: history rest self'
      | Raises _ => []
      end
  end.

Definition events (self : FaaSrFunctionLogger) : list LogEvent :=
  map event (delivered self).

(** During the action the artifact is not observed: a poll finds no
    object under the key. *)
Definition artifact_unseen (key : string) (a : Action) : Prop :=
  match a with
  | Poll s3 => S3Client.object_exists s3 key = Value false
  | Stop => True
  end.

(** A store in which no object exists. *)
Definition absent_store : S3Client.FaaSrS3Client :=
  {| S3Client._bucket_name := "bucket";
     S3Client.head_object := fun _ _ => S3Client.ClientError "404";
     S3Client.get_object_body := fun _ _ => S3Client.ClientError "404" |}.

(** A store that holds [content] under every key. *)
Definition store_with (content : string) : S3Client.FaaSrS3Client :=
  {| S3Client._bucket_name := "bucket";
     S3Client.head_object := fun _ _ => S3Client.Returned tt;
     S3Client.get_object_body := fun _ _ => S3Client.Returned content |}.

End FunctionLogger.

(* ===================================================================== *)
(** ** framework/workflow_runner.py *)
(* ===================================================================== *)
Module WorkflowRunner.

(** *** What the runner imports from the rest of the repository *)

(** Modelled from the spec: the enumeration [FunctionStatus] of
    framework/utils/enums.py, which is not among the sources; its members
    are the statuses of section 3 and are the ones the runner names. *)
Module FunctionStatus.
Inductive t : Type :=
| PENDING | INVOKED | NOT_INVOKED | RUNNING
| COMPLETED | FAILED | SKIPPED | TIMEOUT.
End FunctionStatus.

Global Instance FunctionStatus_eq_dec : EqDecision FunctionStatus.t.
Proof. solve_decision. Defined.

(** Modelled from the spec: the enumeration [InvocationStatus] of
    framework/utils/enums.py, which is not among the sources; its members
    are the three outcomes of the resolver of section 4.2. *)
Module InvocationStatus.
Inductive t : Type := PENDING | INVOKED | NOT_INVOKED.

(** Truth value of a member in a condition ([if status := ...]).  The
    members of a Python [Enum] that mixes in no data type are all true,
    whatever their values are. *)
Definition truthy (s : t) : bool := true.
End InvocationStatus.

Global Instance InvocationStatus_eq_dec : EqDecision InvocationStatus.t.
Proof. solve_decision. Defined.

(** Modelled from the spec: the status predicates of framework/utils, which
    is not among the sources.  The five statuses of section 3 called final
    make [has_final_state]; [has_completed] holds for the two statuses that
    end the loop with success in section 4.5 (COMPLETED, NOT_INVOKED); the
    others test for the status of their name. *)
Definition pending (s : FunctionStatus.t) : bool := bool_decide (s = FunctionStatus.PENDING).
Definition invoked (s : FunctionStatus.t) : bool := bool_decide (s = FunctionStatus.INVOKED).
Definition not_invoked (s : FunctionStatus.t) : bool := bool_decide (s = FunctionStatus.NOT_INVOKED).
Definition running (s : FunctionStatus.t) : bool := bool_decide (s = FunctionStatus.RUNNING).
Definition completed (s : FunctionStatus.t) : bool := bool_decide (s = FunctionStatus.COMPLETED).
Definition failed (s : FunctionStatus.t) : bool := bool_decide (s = FunctionStatus.FAILED).

Definition has_completed (s : FunctionStatus.t) : bool :=
  match s with
  | FunctionStatus.COMPLETED | FunctionStatus.NOT_INVOKED => true
  | _ => false
  end.

Definition has_final_state (s : FunctionStatus.t) : bool :=
  match s with
  | FunctionStatus.COMPLETED | FunctionStatus.FAILED | FunctionStatus.NOT_INVOKED
  | FunctionStatus.SKIPPED | FunctionStatus.TIMEOUT => true
  | _ => false
  end.

(** Modelled from the spec: [extract_function_name] of framework/utils,
    which is not among the sources: the base name of an instance name, that
    is the name without its rank suffix "(r)" (section 4.1). *)
Fixpoint extract_function_name (function_name : string) : string :=
  match function_name with
  | EmptyString => EmptyString
  | String c rest =>
      if Ascii.eqb c "("%char then EmptyString
      else String c (extract_function_name rest)
  end.

(** Modelled from the spec: the class [FaaSrFunction] of
    framework/faasr_function.py, which is not among the sources.  An
    instance has its name, its mutable status, which starts as PENDING, and
    the set of base names it invoked, known once it has completed
    (section 3). *)
Record FaaSrFunction : Type := {
  function_name : string;
  status : FunctionStatus.t;
  invocations : option (gset string)
}.

Definition new_function (name : string) : FaaSrFunction :=
  {| function_name := name; status := FunctionStatus.PENDING; invocations := None |}.

Definition with_status (st : FunctionStatus.t) (f : FaaSrFunction) : FaaSrFunction :=
  {| function_name := function_name f; status := st; invocations := invocations f |}.

(** Exceptions that can leave a method of the runner. *)
Inductive Exn : Type :=
| StopMonitoring (reason : string)
| KeyError (key : string)
| IndexError (index : nat)
| IllegalStateTransition (name : string) (old new : FunctionStatus.t)
| StoreError (e : S3Client.Exn).

(** Modelled from the spec: [FaaSrFunction.set_status], which is not among
    the sources: it rejects, with a fatal error, any attempt to overwrite a
    status that is already final (sections 4.1 and 7). *)
Definition set_status (st : FunctionStatus.t) (f : FaaSrFunction) : Result Exn FaaSrFunction :=
  if has_final_state (status f)
  then Raises (IllegalStateTransition (function_name f) (status f) st)
  else Value (with_status st f).

(** *** The runner *)

(** Messages of [self.logger]. *)
Inductive LogRecord : Type :=
| Function_failed (name : string)
| Function_not_invoked (name : string)
| Function_invoked (name : string)
| Function_running (name : string)
| Function_completed (name : string)
| All_functions_completed
| Skipping_function_on_failure (name : string)
| Function_skipped_due_to_shutdown (name : string)
| Function_timed_out (name : string)
| Monitoring_workflow_execution
| Monitoring_complete.

(** The attributes set once in [__init__].  [ranks] and [adj_graph] come
    from [build_adjacency_graph] of FaaSr_py; a rank count is read for every
    name it is asked for. *)
Record Workflow : Type := {
  timeout : Z;
  check_interval : Z;
  adj_graph : gmap string (list string);
  ranks : string -> Z;
  reverse_adj_graph : gmap string (gset string);
  workflow_invoke : string;
  function_names : list string
}.

(** The attributes that change during a run.  [_functions] is the dict of
    that name in insertion order, every instance stored under its own
    [function_name]; [clock] is the value [time.time()] returns, in seconds
    (times are integers here, the code has floats); [logged] is the output
    of [self.logger], oldest first; [submitted] lists, oldest first, the
    instance names with which [_check_invocation_status] was called. *)
Record State : Type := {
  last_change_time : Z;
  seconds_since_last_change : Z;
  _monitoring_complete : bool;
  _shutdown_requested : bool;
  _functions : list FaaSrFunction;
  _prev_statuses : gmap string FunctionStatus.t;
  clock : Z;
  logged : list LogRecord;
  submitted : list string
}.

Definition set_timer (t0 secs : Z) (s : State) : State :=
  {| last_change_time := t0; seconds_since_last_change := secs;
     _monitoring_complete := _monitoring_complete s;
     _shutdown_requested := _shutdown_requested s;
     _functions := _functions s; _prev_statuses := _prev_statuses s;
     clock := clock s; logged := logged s; submitted := submitted s |}.

Definition set_functions (fs : list FaaSrFunction) (s : State) : State :=
  {| last_change_time := last_change_time s;
     seconds_since_last_change := seconds_since_last_change s;
     _monitoring_complete := _monitoring_complete s;
     _shutdown_requested := _shutdown_requested s;
     _functions := fs; _prev_statuses := _prev_statuses s;
     clock := clock s; logged := logged s; submitted := submitted s |}.

Definition set_prev_statuses (p : gmap string FunctionStatus.t) (s : State) : State :=
  {| last_change_time := last_change_time s;
     seconds_since_last_change := seconds_since_last_change s;
     _monitoring_complete := _monitoring_complete s;
     _shutdown_requested := _shutdown_requested s;
     _functions := _functions s; _prev_statuses := p;
     clock := clock s; logged := logged s; submitted := submitted s |}.

Definition set_logged (l : list LogRecord) (s : State) : State :=
  {| last_change_time := last_change_time s;
     seconds_since_last_change := seconds_since_last_change s;
     _monitoring_complete := _monitoring_complete s;
     _shutdown_requested := _shutdown_requested s;
     _functions := _functions s; _prev_statuses := _prev_statuses s;
     clock := clock s; logged := l; submitted := submitted s |}.

Definition set_submitted (l : list string) (s : State) : State :=
  {| last_change_time := last_change_time s;
     seconds_since_last_change := seconds_since_last_change s;
     _monitoring_complete := _monitoring_complete s;
     _shutdown_requested := _shutdown_requested s;
     _functions := _functions s; _prev_statuses := _prev_statuses s;
     clock := clock s; logged := logged s; submitted := l |}.

Definition set_clock (t : Z) (s : State) : State :=
  {| last_change_time := last_change_time s;
     seconds_since_last_change := seconds_since_last_change s;
     _monitoring_complete := _monitoring_complete s;
     _shutdown_requested := _shutdown_requested s;
     _functions := _functions s; _prev_statuses := _prev_statuses s;
     clock := t; logged := logged s; submitted := submitted s |}.

(** [_set_monitoring_complete] and [_set_shutdown_requested]. *)
Definition _set_monitoring_complete (s : State) : State :=
  {| last_change_time := last_change_time s;
     seconds_since_last_change := seconds_since_last_change s;
     _monitoring_complete := true;
     _shutdown_requested := _shutdown_requested s;
     _functions := _functions s; _prev_statuses := _prev_statuses s;
     clock := clock s; logged := logged s; submitted := submitted s |}.

Definition _set_shutdown_requested (s : State) : State :=
  {| last_change_time := last_change_time s;
     seconds_since_last_change := seconds_since_last_change s;
     _monitoring_complete := _monitoring_complete s;
     _shutdown_requested := true;
     _functions := _functions s; _prev_statuses := _prev_statuses s;
     clock := clock s; logged := logged s; submitted := submitted s |}.

(** **** Methods as state transformers that may raise *)

Inductive Step (A : Type) : Type :=
| Ok (a : A) (s : State)
| Err (e : Exn) (s : State).
Arguments Ok {A} a s.
Arguments Err {A} e s.

Definition M (A : Type) : Type := State -> Step A.

Definition ret {A} (a : A) : M A := fun s => Ok a s.
Definition raise {A} (e : Exn) : M A := fun s => Err e s.
Definition bind {A B} (m : M A) (k : A -> M B) : M B :=
  fun s => match m s with
           | Ok a s' => k a s'
           | Err e s' => Err e s'
           end.
Definition gets {A} (f : State -> A) : M A := fun s => Ok (f s) s.
Definition modify (f : State -> State) : M unit := fun s => Ok tt (f s).
Definition info (r : LogRecord) : M unit :=
  modify (fun s => set_logged (logged s ++ [r]) s).
Definition when (b : bool) (m : M unit) : M unit := if b then m else ret tt.

Notation "'let*' x := m 'in' k" := (bind m (fun x => k))
  (at level 10, x name, m at level 100, k at level 200, only parsing).
Notation "m ;;; k" := (bind m (fun _ => k))
  (at level 100, k at level 200, right associativity, only parsing).

Definition state_of {A} (r : Step A) : State :=
  match r with Ok _ s => s | Err _ s => s end.

(** [for i in indices: body(i)] *)
Fixpoint for_each (body : nat -> M unit) (indices : list nat) : M unit :=
  match indices with
  | [] => ret tt
  | i :: rest => body i ;;; for_each body rest
  end.

(** The [i]-th value of [self._functions.values()].  The loops take their
    indices from the dict itself, so the second case is never reached. *)
Definition function_at (i : nat) : M FaaSrFunction :=
  fun s => match _functions s !! i with
           | Some f => Ok f s
           | None => Err (IndexError i) s
           end.

(** [self._functions[name]] *)
Definition lookup_function (name : string) (fs : list FaaSrFunction) : option FaaSrFunction :=
  snd <$> list_find (fun f => function_name f = name) fs.

(** [function.set_status(st)] for the [i]-th function of the dict. *)
Definition set_status_at (i : nat) (st : FunctionStatus.t) : M unit :=
  let* f := function_at i in
  match set_status st f with
  | Value f' => modify (fun s => set_functions (<[i := f']> (_functions s)) s)
  | Raises e => raise e
  end.

(** **** Initialization helpers *)

Definition add_invoker (invoker : string) (rev : gmap string (gset string)) (function : string)
  : gmap string (gset string) :=
  <[function := default ∅ (rev !! function) ∪ {[invoker]}]> rev.

Definition _build_reverse_adjacency_graph (adj : gmap string (list string))
  : gmap string (gset string) :=
  map_fold (fun invoker invoked_functions rev =>
              foldl (add_invoker invoker) rev invoked_functions) ∅ adj.

(** [range(1, n + 1)] *)
Definition range1 (n : Z) : list Z := (fun k => Z.of_nat k + 1)%Z <$> seq 0 (Z.to_nat n).

Definition _iter_ranks (w : Workflow) (function_name : string) : list string :=
  if (ranks w function_name <=? 1)%Z then [function_name]
  else (fun rank => function_name ++ "(" ++ pretty rank ++ ")") <$> range1 (ranks w function_name).

(** [functions[rank] = function] on a dict kept in insertion order. *)
Fixpoint dict_set (f : FaaSrFunction) (fs : list FaaSrFunction) : list FaaSrFunction :=
  match fs with
  | [] => [f]
  | g :: rest =>
      if decide (function_name g = function_name f) then f :: rest
      else g :: dict_set f rest
  end.

Definition build_function (w : Workflow) (rank : string) : Result Exn FaaSrFunction :=
  let function := new_function rank in
  if decide (extract_function_name rank = workflow_invoke w)
  then set_status FunctionStatus.INVOKED function
  else Value function.

Fixpoint build_all (w : Workflow) (names : list string) (functions : list FaaSrFunction)
  : Result Exn (list FaaSrFunction) :=
  match names with
  | [] => Value functions
  | rank :: rest =>
      match build_function w rank with
      | Value function => build_all w rest (dict_set function functions)
      | Raises e => Raises e
      end
  end.

Definition _build_functions (w : Workflow) : Result Exn (list FaaSrFunction) :=
  build_all w (concat (_iter_ranks w <$> function_names w)) [].

(** [get_function_statuses] *)
Definition get_function_statuses (fs : list FaaSrFunction) : gmap string FunctionStatus.t :=
  foldl (fun m f => <[function_name f := status f]> m) ∅ fs.

(** **** Monitoring *)

(** How a run of the monitoring thread ends: [_start_monitoring] returned,
    an exception left it, or it is still looping after the ticks looked
    at. *)
Inductive Outcome : Type :=
| Finished (s : State)
| Died (e : Exn) (s : State)
| StillMonitoring (s : State).

Definition final_state (o : Outcome) : State :=
  match o with Finished s | Died _ s | StillMonitoring s => s end.

Section Monitoring.

(** The order in which Python yields the members of a set; the language
    leaves it unspecified. *)
Variable set_iter : gset string -> list string.

Variable w : Workflow.

(** ***** Timeout helpers *)

Definition _reset_timer : M unit :=
  modify (fun s => set_timer (clock s) 0 s).

Definition _increment_timer : M unit :=
  modify (fun s => set_timer (last_change_time s) (clock s - last_change_time s) s).

Definition _did_timeout (s : State) : bool :=
  (timeout w <=? seconds_since_last_change s)%Z.

(** ***** Private helpers *)

Definition _get_invocation_status (invoker function : FaaSrFunction)
  : option InvocationStatus.t :=
  match invocations invoker with
  | Some invocations =>
      if decide (extract_function_name (function_name function) ∈ invocations)
      then Some InvocationStatus.INVOKED
      else Some InvocationStatus.NOT_INVOKED
  | None => Some InvocationStatus.PENDING
  end.

(** The loop of [_check_invocation_status] over the instance names
    produced by [chain(...)]; [if status := ...: return status] returns
    when the result is neither [None] nor false in a condition. *)
Fixpoint check_ranks (functions : list FaaSrFunction) (function : FaaSrFunction)
    (rank_names : list string) : Result Exn InvocationStatus.t :=
  match rank_names with
  | [] => Value InvocationStatus.NOT_INVOKED
  | rank :: rest =>
      match lookup_function rank functions with
      | None => Raises (KeyError rank)
      | Some invoker =>
          match _get_invocation_status invoker function with
          | Some status =>
              if InvocationStatus.truthy status then Value status
              else check_ranks functions function rest
          | None => check_ranks functions function rest
          end
      end
  end.

(** [reverse_adj_graph] is a [defaultdict(set)]. *)
Definition invokers_of (function : FaaSrFunction) : gset string :=
  default ∅ (reverse_adj_graph w !! extract_function_name (function_name function)).

Definition invoker_ranks (function : FaaSrFunction) : list string :=
  concat (_iter_ranks w <$> set_iter (invokers_of function)).

Definition _check_invocation_status (function : FaaSrFunction) : M InvocationStatus.t :=
  fun s =>
    let s' := set_submitted (submitted s ++ [function_name function]) s in
    match check_ranks (_functions s) function (invoker_ranks function) with
    | Value status => Ok status s'
    | Raises e => Err e s'
    end.

(** ***** Monitoring helpers *)

Definition _handle_pending (i : nat) : M unit :=
  let* function := function_at i in
  let* invocation_status := _check_invocation_status function in
  match invocation_status with
  | InvocationStatus.INVOKED =>
      _reset_timer ;;; set_status_at i FunctionStatus.INVOKED
  | InvocationStatus.NOT_INVOKED =>
      _reset_timer ;;; set_status_at i FunctionStatus.NOT_INVOKED
  | InvocationStatus.PENDING => ret tt
  end.

Definition _log_status_change (function : FaaSrFunction) : M unit :=
  let name := function_name function in
  if failed (status function) then info (Function_failed name)
  else if not_invoked (status function) then info (Function_not_invoked name)
  else if invoked (status function) then info (Function_invoked name)
  else if running (status function) then info (Function_running name)
  else if completed (status function) then info (Function_completed name)
  else ret tt.

Definition _all_functions_completed (s : State) : bool :=
  forallb (fun function => has_completed (status function)) (_functions s).

Definition all_indices : M (list nat) :=
  gets (fun s => seq 0 (length (_functions s))).

Definition finish_function (i : nat) : M unit :=
  let* function := function_at i in
  let* shutdown_requested := gets _shutdown_requested in
  if negb (has_final_state (status function)) && shutdown_requested then
    set_status_at i FunctionStatus.SKIPPED ;;;
    info (Function_skipped_due_to_shutdown (function_name function))
  else if negb (has_final_state (status function)) then
    set_status_at i FunctionStatus.TIMEOUT ;;;
    info (Function_timed_out (function_name function))
  else ret tt.

Definition _finish_monitoring : M unit :=
  let* indices := all_indices in
  for_each finish_function indices ;;;
  modify _set_monitoring_complete ;;;
  info Monitoring_complete.

Definition cascade_function (i : nat) : M unit :=
  let* function := function_at i in
  if negb (has_completed (status function)) then
    set_status_at i FunctionStatus.SKIPPED ;;;
    info (Skipping_function_on_failure (function_name function))
  else ret tt.

Definition _cascade_failure : M unit :=
  let* indices := all_indices in
  for_each cascade_function indices.

(** ***** Workflow monitoring *)

Definition prev_status (name : string) : M FunctionStatus.t :=
  fun s => match _prev_statuses s !! name with
           | Some st => Ok st s
           | None => Err (KeyError name) s
           end.

(** The [for] loop of [_monitor_workflow_execution]; the result is
    [workflow_failed]. *)
Fixpoint monitor_functions (indices : list nat) : M bool :=
  match indices with
  | [] => ret false
  | i :: rest =>
      let* function := function_at i in
      when (pending (status function)) (_handle_pending i) ;;;
      let* function := function_at i in
      let* prev := prev_status (function_name function) in
      when (bool_decide (prev ≠ status function))
        (_log_status_change function ;;;
         modify (fun s => set_prev_statuses
                    (<[function_name function := status function]> (_prev_statuses s)) s)) ;;;
      if failed (status function) then ret true
      else monitor_functions rest
  end.

Definition _monitor_workflow_execution : M unit :=
  let* indices := all_indices in
  let* workflow_failed := monitor_functions indices in
  let* all_completed := gets _all_functions_completed in
  if all_completed then
    info All_functions_completed ;;;
    raise (StopMonitoring "All functions completed")
  else if (workflow_failed : bool) then
    _cascade_failure ;;;
    raise (StopMonitoring "Failure detected")
  else ret tt.

(** ***** The monitoring thread *)

Section Loop.

(** The call in the [try] block; [_start_monitoring] below is stated for
    any body so that it also covers a tick from which a store error
    escapes. *)
Variable tick : M unit.

(** What [time.sleep(self.check_interval)] lets happen the [k]-th time
    it is called: the clock advances and the other threads run. *)
Variable sleep : nat -> State -> State.

Definition finish (s : State) : Outcome :=
  match _finish_monitoring s with
  | Ok _ s' => Finished s'
  | Err e s' => Died e s'
  end.

(** The [while] loop and the call of [_finish_monitoring] after it;
    [fuel] bounds the number of ticks looked at. *)
Fixpoint monitoring_loop (fuel k : nat) (s : State) : Outcome :=
  if negb (_did_timeout s) && negb (_shutdown_requested s) then
    match fuel with
    | O => StillMonitoring s
    | S fuel' =>
        match tick s with
        | Err (StopMonitoring _) s' => finish s'
        | Err e s' => Died e s'
        | Ok _ s' =>
            monitoring_loop fuel' (S k) (sleep k (state_of (_increment_timer s')))
        end
    end
  else finish s.

Definition _start_monitoring (fuel : nat) (s : State) : Outcome :=
  monitoring_loop fuel 0
    (state_of ((info Monitoring_workflow_execution ;;; _reset_timer) s)).

End Loop.

(** [time.sleep(check_interval)] when nothing else happens. *)
Definition quiet_sleep (k : nat) (s : State) : State :=
  set_clock (clock s + check_interval w) s.

(** [_start]: the state in which the monitoring thread is started. *)
Definition _start (now : Z) : Result Exn State :=
  match _build_functions w with
  | Raises e => Raises e
  | Value functions =>
      Value {| last_change_time := now; seconds_since_last_change := 0;
               _monitoring_complete := false; _shutdown_requested := false;
               _functions := functions;
               _prev_statuses := get_function_statuses functions;
               clock := now; logged := []; submitted := [] |}
  end.

End Monitoring.

(** [__init__]: the reverse graph is derived from the forward graph. *)
Definition init (timeout check_interval : Z) (adj : gmap string (list string))
    (ranks : string -> Z) (workflow_invoke : string) (function_names : list string) : Workflow :=
  {| timeout := timeout; check_interval := check_interval;
     adj_graph := adj; ranks := ranks;
     reverse_adj_graph := _build_reverse_adjacency_graph adj;
     workflow_invoke := workflow_invoke; function_names := function_names |}.

End WorkflowRunner.

(* ===================================================================== *)
(** ** What a step of the monitor may change *)
(* ===================================================================== *)
Module Steps.
  Import WorkflowRunner.

(** One instance before and after: same name, a final status is kept, and
    an instance that left PENDING does not return to it. *)
Definition function_step (f f' : FaaSrFunction) : Prop :=
  function_name f' = function_name f
  /\ (has_final_state (status f) = true -> status f' = status f)
  /\ (status f <> FunctionStatus.PENDING -> status f' <> FunctionStatus.PENDING).

Definition is_pending_in (s : State) (name : string) : Prop :=
  exists f, f ∈ _functions s /\ function_name f = name
            /\ status f = FunctionStatus.PENDING.

Definition no_pending (s : State) : Prop :=
  Forall (fun f => status f <> FunctionStatus.PENDING) (_functions s).

(** The registry and the resolver's record over a stretch of a run. *)
Definition run_step (s s' : State) : Prop :=
  Forall2 function_step (_functions s) (_functions s')
  /\ exists new, submitted s' = (submitted s ++ new)%list
                 /\ Forall (is_pending_in s) new.

(** The same over a stretch of one tick: the timer is left alone unless
    some instance is pending. *)
Definition tick_step (s s' : State) : Prop :=
  run_step s s'
  /\ (no_pending s ->
      last_change_time s' = last_change_time s
      /\ seconds_since_last_change s' = seconds_since_last_change s).

(** What the other threads may do while the monitor sleeps. *)
Definition other_threads_respect (sleep : nat -> State -> State) : Prop :=
  forall k s,
    Forall2 function_step (_functions s) (_functions (sleep k s))
    /\ submitted (sleep k s) = submitted s.

(** The instances of the entry point are not pending, and no instance of
    the entry point was submitted to the resolver. *)
Definition entry_point_settled (w : Workflow) (s : State) : Prop :=
  Forall (fun f => extract_function_name (function_name f) = workflow_invoke w ->
                   status f <> FunctionStatus.PENDING) (_functions s)
  /\ Forall (fun name => extract_function_name name <> workflow_invoke w) (submitted s).



(** The status [_build_functions] gives to the instance called [name]. *)
Definition seeded_status (w : Workflow) (name : string) : FunctionStatus.t :=
  if decide (extract_function_name name = workflow_invoke w)
  then FunctionStatus.INVOKED else FunctionStatus.PENDING.

Definition seeded (w : Workflow) (f : FaaSrFunction) : Prop :=
  status f = seeded_status w (function_name f).

(** Instance [i] of [s'] has the name and the status of [f]. *)
Definition same_status_at (i : nat) (f : FaaSrFunction) (s' : State) : Prop :=
  exists f', _functions s' !! i = Some f'
             /\ function_name f' = function_name f /\ status f' = status f.

End Steps.

(* ===================================================================== *)
(** ** Concrete inputs *)
(* ===================================================================== *)
Module Scenarios.
  Import FunctionLogger.

Definition nl : string := String newline EmptyString.

(** A log artifact with two lines, and the same artifact after three
    more lines were appended. *)
Definition two_lines : string := "start" ++ nl ++ "step 1" ++ nl.

(** The artifact is absent for [a] polls, holds [c2] for [2 + b] polls and
    [c5] for [1 + c] polls; then [stop()] is called and the artifact,
    unchanged, is polled [1 + d] more times. *)
Definition growing_log_schedule (c2 c5 : string) (a b c d : nat) : list Action :=
  repeat (Poll absent_store) a
  ++ repeat (Poll (store_with c2)) (2 + b)
  ++ repeat (Poll (store_with c5)) (1 + c)
  ++ [Stop]
  ++ repeat (Poll (store_with c5)) (1 + d).

(** A logger whose owner called [stop()] before the first poll. *)
Definition stopped_early : FaaSrFunctionLogger := stop (new "logs/f.txt" false).

End Scenarios.

Module RunnerScenarios.
  Import WorkflowRunner.

(** An iteration order for sets: the members in the order in which they
    occur in [l]. *)
Definition in_order (l : list string) (S : gset string) : list string :=
  filter (fun x => x ∈ S) l.

Definition unranked (name : string) : Z := 1.

Definition snapshot (functions : list FaaSrFunction) (now : Z) : State :=
  {| last_change_time := now; seconds_since_last_change := 0;
     _monitoring_complete := false; _shutdown_requested := false;
     _functions := functions;
     _prev_statuses := get_function_statuses functions;
     clock := now; logged := []; submitted := [] |}.

(** Multi-parent merge: root invokes a and b, a and b invoke c. *)
Definition merge_graph : gmap string (list string) :=
  <["root" := ["a"; "b"]]> (<["a" := ["c"]]> (<["b" := ["c"]]> ∅)).

Definition merge_workflow : Workflow :=
  init 180 1 merge_graph unranked "root" ["root"; "a"; "b"; "c"].

(** root, a and b have completed; a invoked c, b did not. *)
Definition merge_c : FaaSrFunction :=
  {| function_name := "c"; status := FunctionStatus.PENDING; invocations := None |}.

Definition merge_functions : list FaaSrFunction :=
  [ {| function_name := "root"; status := FunctionStatus.COMPLETED;
       invocations := Some {["a"; "b"]} |};
    {| function_name := "a"; status := FunctionStatus.COMPLETED;
       invocations := Some {["c"]} |};
    {| function_name := "b"; status := FunctionStatus.COMPLETED;
       invocations := Some ∅ |};
    merge_c ].

Definition merge_state : State := snapshot merge_functions 0.

(** Two independent roots A and B, and C invoked by both; A is the entry
    point named by the payload. *)
Definition roots_graph : gmap string (list string) :=
  <["A" := ["C"]]> (<["B" := ["C"]]> ∅).

Definition roots_workflow : Workflow :=
  init 180 1 roots_graph unranked "A" ["A"; "B"; "C"].

(** A has failed while B is running and C is pending; the previous
    snapshot still has A running. *)
Definition failed_functions : list FaaSrFunction :=
  [ {| function_name := "A"; status := FunctionStatus.FAILED; invocations := None |};
    {| function_name := "B"; status := FunctionStatus.RUNNING; invocations := None |};
    {| function_name := "C"; status := FunctionStatus.PENDING; invocations := None |} ].

Definition failed_state : State :=
  {| last_change_time := 0; seconds_since_last_change := 0;
     _monitoring_complete := false; _shutdown_requested := false;
     _functions := failed_functions;
     _prev_statuses :=
       <["A" := FunctionStatus.RUNNING]> (get_function_statuses failed_functions);
     clock := 0; logged := []; submitted := [] |}.

(** A single function that was seen INVOKED and is now RUNNING, five
    seconds after the timer was reset. *)
Definition single_workflow : Workflow :=
  init 10 1 ∅ unranked "f" ["f"].

Definition running_functions : list FaaSrFunction :=
  [ {| function_name := "f"; status := FunctionStatus.RUNNING; invocations := None |} ].

Definition running_state : State :=
  {| last_change_time := 0; seconds_since_last_change := 5;
     _monitoring_complete := false; _shutdown_requested := false;
     _functions := running_functions;
     _prev_statuses := {["f" := FunctionStatus.INVOKED]};
     clock := 5; logged := []; submitted := [] |}.

(** The function logger of f reports RUNNING during the fifth sleep. *)
Definition starts_running (k : nat) (s : State) : State :=
  quiet_sleep single_workflow k
    (if decide (k = 4) then set_functions running_functions s else s).

(** A tick out of which a store error escapes. *)
Definition store_error : Exn :=
  StoreError (S3Client.S3ClientError S3Client.Boto3_client_error_getting_object "500").

Definition failing_tick : M unit := raise store_error.

End RunnerScenarios.

(* ===================================================================== *)
(** ** More of framework/faasr_function_logger.py *)
(* ===================================================================== *)
Module LoggerViews.
  Import FunctionLogger.

(** [sep.join(lines)] *)
Fixpoint join (sep : string) (lines : list string) : string :=
  match lines with
  | [] => EmptyString
  | [line] => line
  | line :: rest => line ++ sep ++ join sep rest
  end.

(** The property [logs_content]. *)
Definition logs_content (self : FaaSrFunctionLogger) : string :=
  join (String newline EmptyString) (_logs self).

(** The characters of a string, in order. *)
Fixpoint chars (s : string) : list ascii :=
  match s with
  | EmptyString => []
  | String c rest => c :: chars rest
  end.

(** The string begins, respectively ends, with a character that
    [strip()] keeps. *)
Definition starts_nonspace (s : string) : bool :=
  match s with
  | EmptyString => false
  | String c _ => negb (isspace c)
  end.

Fixpoint ends_nonspace (s : string) : bool :=
  match s with
  | EmptyString => false
  | String c EmptyString => negb (isspace c)
  | String _ rest => ends_nonspace rest
  end.

(** The event sequence of a monitor with the given flags that fired
    LOG_UPDATED [n] times. *)
Definition expected_events (started complete : bool) (n : nat) : list LogEvent :=
  ((if started then LOG_CREATED :: repeat LOG_UPDATED n else [])
   ++ (if complete then [LOG_COMPLETE] else []))%list.

(** What holds of a monitor at every moment of its life. *)
Definition well_formed (self : FaaSrFunctionLogger) : Prop :=
  exists n,
    events self = expected_events (_logs_started self) (_logs_complete self) n
    /\ n <= length (_logs self)
    /\ (_logs_started self = false -> _logs self = [])
    /\ (_logs_complete self = true ->
        _logs_started self = true /\ _stop_requested self = true).

End LoggerViews.

(* ===================================================================== *)
(** ** More of framework/s3_client.py: the constructor *)
(* ===================================================================== *)
Module S3ClientSetup.
  Import S3Client.

(** The f-string prefixes of the messages given to
    [S3ClientInitializationError]. *)
Inductive InitMessage : Type :=
| Boto3_client_error
| Key_error
| Unhandled_error.

Inductive InitExn : Type :=
| S3ClientInitializationError (message : InitMessage) (detail : string).

(** The object [boto3.client("s3", ...)] returns. *)
Record Boto3Client : Type := {
  client_head_object : string -> string -> Response unit;
  client_get_object_body : string -> string -> Response string
}.

(** The two keys of the workflow data the constructor reads; a datastore
    entry is a dict from option names to strings. *)
Record WorkflowData : Type := {
  DefaultDataStore : option string;
  DataStores : option (gmap string (gmap string string))
}.

(** [datastore_config.get("Endpoint")] when it is true in a condition. *)
Definition endpoint_url (datastore_config : gmap string string) : option string :=
  match datastore_config !! "Endpoint" with
  | Some (String c rest) => Some (String c rest)
  | _ => None
  end.

Section Constructor.

(** [boto3.client("s3", aws_access_key_id=.., aws_secret_access_key=..,
    region_name=.., endpoint_url=..)], the last argument being absent
    in the second call of the constructor. *)
Variable boto3_client : string -> string -> string -> option string -> Response Boto3Client.

(** [ThrottledClient] of framework/utils/throttled_client.py wraps the
    client. *)
Variable ThrottledClient : Boto3Client -> Boto3Client.

Definition wrap (bucket : string) (client : Boto3Client) : FaaSrS3Client :=
  {| _bucket_name := bucket;
     head_object := client_head_object (ThrottledClient client);
     get_object_body := client_get_object_body (ThrottledClient client) |}.

Definition init (workflow_data : WorkflowData) (access_key secret_key : string)
  : Result InitExn FaaSrS3Client :=
  let default_datastore := default "S3" (DefaultDataStore workflow_data) in
  match DataStores workflow_data with
  | None => Raises (S3ClientInitializationError Key_error "DataStores")
  | Some stores =>
      match stores !! default_datastore with
      | None => Raises (S3ClientInitializationError Key_error default_datastore)
      | Some datastore_config =>
          match datastore_config !! "Region" with
          | None => Raises (S3ClientInitializationError Key_error "Region")
          | Some region =>
              match boto3_client access_key secret_key region
                      (endpoint_url datastore_config) with
              | ClientError code =>
                  Raises (S3ClientInitializationError Boto3_client_error code)
              | OtherException what =>
                  Raises (S3ClientInitializationError Unhandled_error what)
              | Returned client =>
                  match datastore_config !! "Bucket" with
                  | None => Raises (S3ClientInitializationError Key_error "Bucket")
                  | Some bucket => Value (wrap bucket client)
                  end
              end
          end
      end
  end.

End Constructor.

End S3ClientSetup.

(* ===================================================================== *)
(** ** More of framework/workflow_runner.py and its caller
       integration_tests/conftest.py *)
(* ===================================================================== *)
Module Environment.

Definition REQUIRED_ENV_VARS : list string :=
  ["S3_AccessKey"; "S3_SecretKey"; "GH_PAT"; "GITHUB_REPOSITORY"; "GITHUB_REF_NAME"].

(** [InitializationError] with the message about missing variables. *)
Inductive InitializationError : Type :=
| Missing_required_environment_variables (missing_env_vars : list string).

(** [not os.getenv(var)]: the variable is unset or empty. *)
Definition unset (getenv : string -> option string) (var : string) : bool :=
  match getenv var with
  | Some (String _ _) => false
  | _ => true
  end.

Definition _validate_environment (getenv : string -> option string)
  : Result InitializationError unit :=
  match filter (fun var => unset getenv var = true) REQUIRED_ENV_VARS with
  | [] => Value tt
  | missing_env_vars => Raises (Missing_required_environment_variables missing_env_vars)
  end.

End Environment.

Module Tester.
  Import WorkflowRunner.

(** How a call of [WorkflowTester.wait_for] goes over the snapshots
    looked at. *)
Inductive Waited : Type :=
| Returns (status : FunctionStatus.t)
| Function_failed_exception
| Function_skipped_exception
| Function_timed_out_exception
| RaisesKeyError
| StillWaiting.

(** The condition under the [not] of the [while]. *)
Definition stops_waiting (status : FunctionStatus.t) : bool :=
  bool_decide (status = FunctionStatus.COMPLETED)
  || bool_decide (status = FunctionStatus.NOT_INVOKED)
  || bool_decide (status = FunctionStatus.FAILED)
  || bool_decide (status = FunctionStatus.SKIPPED)
  || bool_decide (status = FunctionStatus.TIMEOUT).

(** [wait_for(function_name)], every element of [snapshots] being what
    one call of [get_function_statuses()] returns. *)
Fixpoint wait_for (function_name : string)
    (snapshots : list (gmap string FunctionStatus.t)) : Waited :=
  match snapshots with
  | [] => StillWaiting
  | statuses :: later =>
      match statuses !! function_name with
      | None => RaisesKeyError
      | Some status =>
          if stops_waiting status then
            if bool_decide (status = FunctionStatus.FAILED) then Function_failed_exception
            else if bool_decide (status = FunctionStatus.SKIPPED) then Function_skipped_exception
            else if bool_decide (status = FunctionStatus.TIMEOUT) then Function_timed_out_exception
            else Returns status
          else wait_for function_name later
      end
  end.

End Tester.

Module Finalization.
  Import WorkflowRunner.

(** What [_finish_monitoring] makes of one instance. *)
Definition finalize (shutdown_requested : bool) (f : FaaSrFunction) : FaaSrFunction :=
  if has_final_state (status f) then f
  else with_status (if shutdown_requested then FunctionStatus.SKIPPED
                    else FunctionStatus.TIMEOUT) f.

(** The timer, the clock, the shutdown flag and the resolver's record are
    the same in both states. *)
Definition same_control (s s' : State) : Prop :=
  last_change_time s' = last_change_time s
  /\ seconds_since_last_change s' = seconds_since_last_change s
  /\ _shutdown_requested s' = _shutdown_requested s
  /\ clock s' = clock s
  /\ submitted s' = submitted s.

(** The previous snapshot has an entry for every instance. *)
Definition snapshot_covers (s : State) : Prop :=
  Forall (fun f => is_Some (_prev_statuses s !! function_name f)) (_functions s).

(** No instance is pending or failed. *)
Definition settled (s : State) : Prop :=
  Forall (fun f => status f <> FunctionStatus.PENDING
                   /\ status f <> FunctionStatus.FAILED) (_functions s).

(** A stretch of a tick that left the registry, the flags, the timer and
    the clock alone and kept the entries of the previous snapshot. *)
Definition quiet_step (s s' : State) : Prop :=
  _functions s' = _functions s
  /\ _monitoring_complete s' = _monitoring_complete s
  /\ same_control s s'
  /\ (forall name, is_Some (_prev_statuses s !! name) ->
                   is_Some (_prev_statuses s' !! name)).

(** One instance before and after a tick: the status is kept, or it goes
    from PENDING to INVOKED or NOT_INVOKED, or from a status that is not
    final to SKIPPED; name and invocations are kept. *)
Definition tick_writes (f f' : FaaSrFunction) : Prop :=
  function_name f' = function_name f
  /\ invocations f' = invocations f
  /\ (status f' = status f
      \/ (status f = FunctionStatus.PENDING
          /\ (status f' = FunctionStatus.INVOKED
              \/ status f' = FunctionStatus.NOT_INVOKED))
      \/ (has_final_state (status f) = false
          /\ status f' = FunctionStatus.SKIPPED)).

End Finalization.

(* ===================================================================== *)
(** * Properties *)
(* ===================================================================== *)

#[local] Set Warnings "-clear-no-such-hyp".

Section S3ClientProperties.
  Import S3Client.

Lemma object_exists_false_iff (self : FaaSrS3Client) (key : string) :
  object_exists self key = Value false <->
  head_object self (_bucket_name self) key = ClientError "404".
Proof.
  unfold object_exists.
  destruct (head_object self (_bucket_name self) key) as [r|code|what].
  - split; discriminate.
  - destruct (String.eqb_spec code "404") as [->|Hne].
    + split; reflexivity.
    + split; [discriminate|]. intros [= Hc]. contradiction.
  - split; discriminate.
Qed.

Lemma get_object_value_iff (self : FaaSrS3Client) (key content : string) :
  get_object self key = Value content <->
  get_object_body self (_bucket_name self) key = Returned content.
Proof.
  unfold get_object.
  destruct (get_object_body self (_bucket_name self) key) as [c|code|what].
  - split; intros [= ->]; reflexivity.
  - destruct (String.eqb code "404"); split; discriminate.
  - split; discriminate.
Qed.

(** C8: [object_exists] returns [False] exactly when [head_object] raises
    a client error with code 404, returns [True] exactly when
    [head_object] succeeds, and raises [S3ClientError] for a client error
    with any other code (an exception of [head_object] that is not a
    client error leaves it as it is); [get_object] returns a value only
    when the read succeeds, and raises [S3ClientError] when the object does not exist
    (code 404) and on every other failure.  So a missing object is told
    apart from the other store failures, and is not an error for the
    existence check. *)
Theorem store_adapter_not_found_contract (self : FaaSrS3Client) (key : string) :
  (object_exists self key = Value false <->
     head_object self (_bucket_name self) key = ClientError "404")
  /\ (object_exists self key = Value true <->
        exists r, head_object self (_bucket_name self) key = Returned r)
  /\ (forall code,
        head_object self (_bucket_name self) key = ClientError code ->
        code <> "404" ->
        object_exists self key =
          Raises (S3ClientError Error_checking_object_existence code))
  /\ (forall what,
        head_object self (_bucket_name self) key = OtherException what ->
        object_exists self key = Raises (Uncaught what))
  /\ (forall content,
        get_object self key = Value content <->
        get_object_body self (_bucket_name self) key = Returned content)
  /\ (get_object_body self (_bucket_name self) key = ClientError "404" ->
        get_object self key = Raises (S3ClientError Object_does_not_exist "404"))
  /\ ((forall content,
         get_object_body self (_bucket_name self) key <> Returned content) ->
        exists message cause,
          get_object self key = Raises (S3ClientError message cause)).
Proof.
  split; [apply object_exists_false_iff|].
  split.
  { unfold object_exists.
    destruct (head_object self (_bucket_name self) key) as [r|code|what].
    - split; eauto.
    - destruct (String.eqb code "404"); split;
        try discriminate; intros [r Hr]; discriminate.
    - split; [discriminate|]. intros [r Hr]; discriminate. }
  split.
  { intros code Hhead Hne. unfold object_exists. rewrite Hhead.
    destruct (String.eqb_spec code "404"); [contradiction|reflexivity]. }
  split.
  { intros what Hhead. unfold object_exists. rewrite Hhead. reflexivity. }
  split; [intros content; apply get_object_value_iff|].
  split.
  { intros Hbody. unfold get_object. rewrite Hbody. reflexivity. }
  intros Hfail. unfold get_object.
  destruct (get_object_body self (_bucket_name self) key) as [c|code|what].
  - exfalso. apply (Hfail c). reflexivity.
  - destruct (String.eqb code "404"); eauto.
  - eauto.
Qed.

End S3ClientProperties.

Section ReverseGraph.
  Import WorkflowRunner.

Lemma add_invoker_spec (invoker function : string) (rev : gmap string (gset string))
    (u v : string) :
  u ∈ default ∅ (add_invoker invoker rev function !! v) <->
  u ∈ default ∅ (rev !! v) \/ (u = invoker /\ v = function).
Proof.
  unfold add_invoker.
  destruct (decide (function = v)) as [->|Hne].
  - rewrite lookup_insert_eq. simpl. set_solver.
  - rewrite lookup_insert_ne by done. naive_solver.
Qed.

Lemma foldl_add_invoker_spec (invoker : string) (invoked_functions : list string)
    (rev : gmap string (gset string)) (u v : string) :
  u ∈ default ∅ (foldl (add_invoker invoker) rev invoked_functions !! v) <->
  u ∈ default ∅ (rev !! v) \/ (u = invoker /\ v ∈ invoked_functions).
Proof.
  revert rev. induction invoked_functions as [|f fs IH]; intros rev; simpl.
  - set_solver.
  - rewrite IH, add_invoker_spec. set_solver.
Qed.

(** C7: the reverse adjacency graph is the exact inverse of the forward
    one: [u] is in [reverse[v]] if and only if [v] is in [forward[u]], an
    absent key being read as empty. *)
Theorem reverse_adjacency_graph_is_inverse (adj : gmap string (list string))
    (u v : string) :
  u ∈ default ∅ (_build_reverse_adjacency_graph adj !! v) <->
  v ∈ default [] (adj !! u).
Proof.
  unfold _build_reverse_adjacency_graph. revert u v.
  apply (map_fold_weak_ind
           (fun rev (m : gmap string (list string)) =>
              forall u v, u ∈ default ∅ (rev !! v) <-> v ∈ default [] (m !! u))).
  - intros u v. rewrite !lookup_empty. simpl. set_solver.
  - intros i x m r Hfresh IH u v.
    rewrite foldl_add_invoker_spec, IH.
    destruct (decide (i = u)) as [->|Hne].
    + rewrite lookup_insert_eq, Hfresh. simpl. set_solver.
    + rewrite lookup_insert_ne by done. naive_solver.
Qed.

End ReverseGraph.

Section LogMonitor.
  Import FunctionLogger.







(** A poll only ever appends to the buffer, and what it appends is the
    part of the fetched artifact beyond the lines already buffered. *)
Lemma poll_appends_new_suffix
    (s3 : S3Client.FaaSrS3Client) (l l' : FaaSrFunctionLogger) :
  poll s3 l = Value l' ->
  _logs l' = _logs l
  \/ exists log_content,
       _get_logs s3 l = Value log_content
       /\ _logs l' = (_logs l ++ new_suffix l log_content)%list.
Proof.
  unfold poll. intros Hpoll.
  destruct (_logs_complete l); [injection Hpoll as <-; auto|].
  destruct (_logs_started l); simpl in Hpoll.
  - destruct (_get_logs s3 l) as [content|e] eqn:Hget; [|discriminate].
    right. exists content. split; [done|].
    destruct (new_suffix l content) as [|x new] eqn:Hnew; simpl in Hpoll.
    + rewrite app_nil_r.
      destruct (_stop_requested l && true); injection Hpoll as <-; done.
    + rewrite andb_false_r in Hpoll. injection Hpoll as <-.
      destruct (stream_logs l); done.
  - destruct (_check_for_logs s3 l) as [[|]|e]; try discriminate;
      injection Hpoll as <-; auto.
Qed.


End LogMonitor.

Section LogMonitorScenario.
  Import FunctionLogger.

Variables (key c2 c5 x1 x2 x3 x4 x5 : string) (stream : bool).
Hypothesis two : parse_lines c2 = [x1; x2].
Hypothesis five : parse_lines c5 = [x1; x2; x3; x4; x5].

Let lines2 : list string := [x1; x2].
Let lines5 : list string := [x1; x2; x3; x4; x5].

Let read5 (stopped complete : bool) : FaaSrFunctionLogger :=
  {| logs_key := key; stream_logs := stream; _logs := lines5;
     _logs_started := true; _logs_complete := complete; _stop_requested := stopped;
     delivered := [ {| event := LOG_CREATED; visible_logs := [] |};
                    {| event := LOG_UPDATED; visible_logs := lines2 |};
                    {| event := LOG_UPDATED; visible_logs := lines5 |} ]
                  ++ (if complete
                      then [ {| event := LOG_COMPLETE; visible_logs := lines5 |} ]
                      else []);
     console := if stream then lines5 else [] |}.


Lemma stop_read5 : act Stop (read5 false false) = Value (read5 true false).
Proof. reflexivity. Qed.

Let schedule (a b c d : nat) : list Action :=
  Scenarios.growing_log_schedule c2 c5 a b c d.



End LogMonitorScenario.

Section LogMonitorWitness.
  Import FunctionLogger Scenarios.


End LogMonitorWitness.

Section StopBeforeStart.
  Import FunctionLogger.

Lemma act_unseen (a : Action) (l : FaaSrFunctionLogger) :
  _logs_started l = false -> _logs_complete l = false ->
  artifact_unseen (logs_key l) a ->
  exists l', act a l = Value l'
    /\ logs_key l' = logs_key l
    /\ _logs_started l' = false /\ _logs_complete l' = false
    /\ delivered l' = delivered l /\ _logs l' = _logs l
    /\ (_stop_requested l = true -> _stop_requested l' = true).
Proof.
  intros Hs Hc Hun. destruct a as [s3|]; simpl in *.
  - exists l. unfold poll, _check_for_logs. rewrite Hc, Hs, Hun. simpl. done.
  - exists (stop l). simpl. done.
Qed.

(** C10 (as amended): as long as the log artifact is not observed to
    exist, that is while every probe for it answers "not found", the
    monitor neither sets the complete flag nor fires LOG_COMPLETE, however
    many poll cycles follow, and whether or not the stop signal was set
    first; it stays in the state in which it only probes for existence. *)
Theorem unseen_artifact_never_completes
    (schedule : list Action) (self : FaaSrFunctionLogger) :
  _logs_started self = false ->
  _logs_complete self = false ->
  _stop_requested self = true ->
  Forall (artifact_unseen (logs_key self)) schedule ->
  exists self',
    run schedule self = Value self'
    /\ _logs_started self' = false
    /\ _logs_complete self' = false
    /\ _stop_requested self' = true
    /\ delivered self' = delivered self.
Proof.
  intros Hs Hc Hstop Hall. revert self Hs Hc Hstop Hall.
  induction schedule as [|a rest IH]; intros self Hs Hc Hstop Hall.
  - exists self. done.
  - apply Forall_cons in Hall as [Ha Hrest].
    destruct (act_unseen a self Hs Hc Ha)
      as (l' & Hact & Hkey & Hs' & Hc' & Hd' & _ & Hstop').
    rewrite <- Hkey in Hrest.
    destruct (IH l' Hs' Hc' (Hstop' Hstop) Hrest) as (l'' & Hrun & ? & ? & ? & Hd'').
    exists l''. simpl. rewrite Hact, Hrun, Hd'', Hd'. done.
Qed.

Lemma unseen_artifact_never_completes_witness :
  let schedule := [Poll absent_store; Stop; Poll absent_store; Poll absent_store] in
  Forall (artifact_unseen (logs_key Scenarios.stopped_early)) schedule
  /\ exists self',
       run schedule Scenarios.stopped_early = Value self'
       /\ _logs_started self' = false
       /\ _logs_complete self' = false
       /\ _stop_requested self' = true
       /\ delivered self' = delivered Scenarios.stopped_early.
Proof.
  assert (H : Forall (artifact_unseen (logs_key Scenarios.stopped_early))
                [Poll absent_store; Stop; Poll absent_store; Poll absent_store]).
  { repeat constructor. }
  split; [exact H|].
  exact (unseen_artifact_never_completes _ Scenarios.stopped_early
           eq_refl eq_refl eq_refl H).
Defined.

(** C10 as stated fails: the stop signal is set while the started flag is
    still false, the artifact appears afterwards, and three polls later
    the complete flag is set and LOG_COMPLETE has been fired. *)
Lemma stop_before_start_can_complete :
  _logs_started Scenarios.stopped_early = false
  /\ _stop_requested Scenarios.stopped_early = true
  /\ exists self',
       run (repeat (Poll (store_with Scenarios.two_lines)) 3) Scenarios.stopped_early
         = Value self'
       /\ _logs_complete self' = true
       /\ events self' = [LOG_CREATED; LOG_UPDATED; LOG_COMPLETE].
Proof.
  split; [reflexivity|]. split; [reflexivity|].
  eexists. split; [reflexivity|]. split; reflexivity.
Qed.

End StopBeforeStart.

Section Resolver.
  Import WorkflowRunner RunnerScenarios.

(** The resolver returns at the first instance it examines: the result
    is what [_get_invocation_status] says about that one invoker. *)
Lemma check_ranks_first (functions : list FaaSrFunction) (function invoker : FaaSrFunction)
    (rank : string) (rest : list string) :
  lookup_function rank functions = Some invoker ->
  check_ranks functions function (rank :: rest) =
    Value (default InvocationStatus.PENDING (_get_invocation_status invoker function)).
Proof.
  intros Hlookup. simpl. rewrite Hlookup.
  unfold _get_invocation_status.
  destruct (invocations invoker) as [invs|]; [|reflexivity].
  destruct (decide (extract_function_name (function_name function) ∈ invs)); reflexivity.
Qed.

(** C1: on the multi-parent merge (root invokes a and b, both invoke c; a
    invoked c, b did not, all three have completed) the resolver answers
    INVOKED for c when the set of invokers is iterated as a, b, and
    NOT_INVOKED when it is iterated as b, a; the tick then commits
    NOT_INVOKED as the status of c. *)
Theorem multi_parent_merge_depends_on_order :
  invokers_of merge_workflow merge_c = {["a"; "b"]}
  /\ in_order ["a"; "b"] {["a"; "b"]} = ["a"; "b"]
  /\ in_order ["b"; "a"] {["a"; "b"]} = ["b"; "a"]
  /\ check_ranks merge_functions merge_c
       (invoker_ranks (in_order ["a"; "b"]) merge_workflow merge_c)
     = Value InvocationStatus.INVOKED
  /\ check_ranks merge_functions merge_c
       (invoker_ranks (in_order ["b"; "a"]) merge_workflow merge_c)
     = Value InvocationStatus.NOT_INVOKED
  /\ status <$> _functions
       (state_of (_monitor_workflow_execution (in_order ["b"; "a"])
                    merge_workflow merge_state))
     = [FunctionStatus.COMPLETED; FunctionStatus.COMPLETED;
        FunctionStatus.COMPLETED; FunctionStatus.NOT_INVOKED].
Proof.
  split; [by vm_compute|]. repeat split; by vm_compute.
Qed.

End Resolver.

Section Cascade.
  Import WorkflowRunner RunnerScenarios.


End Cascade.

Section StepRelations.
  Import WorkflowRunner Steps.

Lemma function_step_refl (f : FaaSrFunction) : function_step f f.
Proof. unfold function_step. auto. Qed.

Lemma function_step_trans (f g h : FaaSrFunction) :
  function_step f g -> function_step g h -> function_step f h.
Proof.
  unfold function_step. intros (Hn1 & Hf1 & Hp1) (Hn2 & Hf2 & Hp2).
  split; [congruence|]. split.
  - intros Hfinal. rewrite Hf2; rewrite Hf1; auto.
  - auto.
Qed.

Lemma functions_step_refl (l : list FaaSrFunction) : Forall2 function_step l l.
Proof. induction l; constructor; auto using function_step_refl. Qed.

Lemma functions_step_trans (l1 l2 l3 : list FaaSrFunction) :
  Forall2 function_step l1 l2 -> Forall2 function_step l2 l3 ->
  Forall2 function_step l1 l3.
Proof.
  intros H12. revert l3. induction H12 as [|f g l1 l2 Hfg _ IH]; intros l3 H23.
  - inversion H23. constructor.
  - inversion H23 as [|g' h l2' l3' Hgh Hrest]; subst.
    constructor; eauto using function_step_trans.
Qed.

Lemma pending_backwards (s s' : State) (name : string) :
  Forall2 function_step (_functions s) (_functions s') ->
  is_pending_in s' name -> is_pending_in s name.
Proof.
  intros Hstep (f' & Hin & Hname & Hpending).
  apply list_elem_of_lookup in Hin as [i Hi].
  destruct (Forall2_lookup_r _ _ _ _ _ Hstep Hi) as (f & Hf & Hn & _ & Hp).
  exists f. split; [eapply list_elem_of_lookup_2; eauto|].
  split; [congruence|].
  destruct (decide (status f = FunctionStatus.PENDING)); [done|].
  exfalso. apply Hp; auto.
Qed.

Lemma no_pending_forwards (s s' : State) :
  Forall2 function_step (_functions s) (_functions s') ->
  no_pending s -> no_pending s'.
Proof.
  unfold no_pending. intros Hstep Hno.
  apply Forall_lookup. intros i f' Hi.
  destruct (Forall2_lookup_r _ _ _ _ _ Hstep Hi) as (f & Hf & _ & _ & Hp).
  apply Hp. eapply Forall_lookup_1 in Hno; eauto.
Qed.

Lemma run_step_refl (s : State) : run_step s s.
Proof.
  split; [apply functions_step_refl|].
  exists []. rewrite app_nil_r. split; [done|constructor].
Qed.

Lemma run_step_trans (s1 s2 s3 : State) :
  run_step s1 s2 -> run_step s2 s3 -> run_step s1 s3.
Proof.
  intros [Hf12 (new1 & Hs1 & Hp1)] [Hf23 (new2 & Hs2 & Hp2)].
  split; [eapply functions_step_trans; eauto|].
  exists (new1 ++ new2)%list. split.
  - rewrite Hs2, Hs1, app_assoc. done.
  - apply Forall_app. split; [done|].
    eapply Forall_impl; [exact Hp2|]. intros name. apply pending_backwards. done.
Qed.

Lemma tick_step_refl (s : State) : tick_step s s.
Proof. split; [apply run_step_refl|done]. Qed.

Lemma tick_step_trans (s1 s2 s3 : State) :
  tick_step s1 s2 -> tick_step s2 s3 -> tick_step s1 s3.
Proof.
  intros [Hr12 Ht12] [Hr23 Ht23].
  split; [eapply run_step_trans; eauto|].
  intros Hno. destruct (Ht12 Hno) as [Hl Hsec].
  destruct Ht23 as [Hl' Hsec'];
    [eapply no_pending_forwards; [apply Hr12|done]|].
  split; congruence.
Qed.

(** Sequencing: the relation holds for [m] and then for the
    continuation at the value and state [m] produced. *)
Lemma tick_step_bind {A B} (m : M A) (k : A -> M B) (s : State) :
  tick_step s (state_of (m s)) ->
  (forall a s', m s = Ok a s' -> tick_step s' (state_of (k a s'))) ->
  tick_step s (state_of (bind m k s)).
Proof.
  unfold bind. intros Hm Hk.
  destruct (m s) as [a s'|e s'] eqn:Hms; simpl in *; [|done].
  eapply tick_step_trans; eauto.
Qed.

(** A change that leaves the registry, the resolver's record and the
    timer alone. *)
Lemma tick_step_frame (s s' : State) :
  _functions s' = _functions s -> submitted s' = submitted s ->
  last_change_time s' = last_change_time s ->
  seconds_since_last_change s' = seconds_since_last_change s ->
  tick_step s s'.
Proof.
  intros Hf Hs Hl Hsec. split; [split|done].
  - rewrite Hf. apply functions_step_refl.
  - exists []. rewrite app_nil_r. split; [done|constructor].
Qed.

Lemma tick_step_info (r : LogRecord) (s : State) : tick_step s (state_of (info r s)).
Proof. by apply tick_step_frame. Qed.

Lemma function_at_inv (i : nat) (s s' : State) (f : FaaSrFunction) :
  function_at i s = Ok f s' -> s' = s /\ _functions s !! i = Some f.
Proof.
  unfold function_at. destruct (_functions s !! i); [|discriminate].
  intros [= -> ->]. done.
Qed.

Lemma tick_step_function_at (i : nat) (s : State) :
  tick_step s (state_of (function_at i s)).
Proof.
  unfold function_at. destruct (_functions s !! i); apply tick_step_refl.
Qed.

(** [set_status] to a status other than PENDING. *)
Lemma tick_step_set_status_at (i : nat) (st : FunctionStatus.t) (s : State) :
  st <> FunctionStatus.PENDING ->
  tick_step s (state_of (set_status_at i st s)).
Proof.
  intros Hst. unfold set_status_at, bind, function_at.
  destruct (_functions s !! i) as [f|] eqn:Hi; simpl; [|apply tick_step_refl].
  unfold set_status. destruct (has_final_state (status f)) eqn:Hfinal; simpl;
    [apply tick_step_refl|].
  split; [split|done]; simpl.
  - rewrite <- (list_insert_id (_functions s) i f) at 1 by done.
    apply Forall2_insert; [apply functions_step_refl|].
    unfold function_step. simpl. split; [done|]. split; [congruence|done].
  - exists []. rewrite app_nil_r. split; [done|constructor].
Qed.

End StepRelations.

Section TickSteps.
  Import WorkflowRunner Steps.

Variable set_iter : gset string -> list string.
Variable w : Workflow.

Lemma tick_step_for_each (body : nat -> M unit) (indices : list nat) (s : State) :
  (forall i s', tick_step s' (state_of (body i s'))) ->
  tick_step s (state_of (for_each body indices s)).
Proof.
  intros Hbody. revert s. induction indices as [|i rest IH]; intros s; simpl.
  - apply tick_step_refl.
  - apply tick_step_bind; [apply Hbody|]. intros _ s' _. apply IH.
Qed.

Lemma pending_not_no_pending (s : State) (i : nat) (f : FaaSrFunction) :
  _functions s !! i = Some f -> status f = FunctionStatus.PENDING -> ~ no_pending s.
Proof.
  intros Hi Hp Hno. eapply Forall_lookup_1 in Hno; eauto.
Qed.

Lemma tick_step_reset_timer (s : State) :
  ~ no_pending s -> tick_step s (state_of (_reset_timer s)).
Proof.
  intros Hsome. split; [|intros Hno; contradiction].
  split; simpl; [apply functions_step_refl|].
  exists []. rewrite app_nil_r. split; [done|constructor].
Qed.

Lemma check_invocation_status_state (f : FaaSrFunction) (s : State) :
  state_of (_check_invocation_status set_iter w f s)
  = set_submitted (submitted s ++ [function_name f]) s.
Proof.
  unfold _check_invocation_status.
  destruct (check_ranks (_functions s) f (invoker_ranks set_iter w f)); reflexivity.
Qed.

Lemma tick_step_check_invocation_status (i : nat) (f : FaaSrFunction) (s : State) :
  _functions s !! i = Some f -> status f = FunctionStatus.PENDING ->
  tick_step s (state_of (_check_invocation_status set_iter w f s)).
Proof.
  intros Hi Hp. rewrite check_invocation_status_state.
  split; [split|done]; simpl.
  - apply functions_step_refl.
  - exists [function_name f]. split; [done|].
    constructor; [|constructor].
    exists f. split; [eapply list_elem_of_lookup_2; eauto|done].
Qed.

Lemma tick_step_handle_pending (i : nat) (f : FaaSrFunction) (s : State) :
  _functions s !! i = Some f -> status f = FunctionStatus.PENDING ->
  tick_step s (state_of (_handle_pending set_iter w i s)).
Proof.
  intros Hi Hp. unfold _handle_pending.
  apply tick_step_bind; [apply tick_step_function_at|].
  intros f' s' [-> Hf']%function_at_inv.
  assert (f' = f) as -> by congruence.
  apply tick_step_bind; [eapply tick_step_check_invocation_status; eauto|].
  intros st s1 Hcheck.
  assert (Hs1 : s1 = set_submitted (submitted s ++ [function_name f]) s).
  { rewrite <- check_invocation_status_state, Hcheck. reflexivity. }
  assert (Hpend1 : ~ no_pending s1).
  { subst s1. eapply pending_not_no_pending; simpl; eauto. }
  destruct st.
  - apply tick_step_refl.
  - apply tick_step_bind; [by apply tick_step_reset_timer|].
    intros _ s2 _. by apply tick_step_set_status_at.
  - apply tick_step_bind; [by apply tick_step_reset_timer|].
    intros _ s2 _. by apply tick_step_set_status_at.
Qed.

Lemma tick_step_log_status_change (f : FaaSrFunction) (s : State) :
  tick_step s (state_of (_log_status_change f s)).
Proof.
  unfold _log_status_change.
  repeat match goal with
         | |- context [if ?b then _ else _] => destruct b
         end; first [apply tick_step_info | apply tick_step_refl].
Qed.

Lemma tick_step_finish_function (i : nat) (s : State) :
  tick_step s (state_of (finish_function i s)).
Proof.
  unfold finish_function.
  apply tick_step_bind; [apply tick_step_function_at|]. intros f s1 _.
  apply tick_step_bind; [apply tick_step_refl|]. intros sr s2 _.
  destruct (negb (has_final_state (status f)) && sr).
  - apply tick_step_bind; [by apply tick_step_set_status_at|].
    intros _ s3 _. apply tick_step_info.
  - destruct (negb (has_final_state (status f))).
    + apply tick_step_bind; [by apply tick_step_set_status_at|].
      intros _ s3 _. apply tick_step_info.
    + apply tick_step_refl.
Qed.

Lemma tick_step_finish_monitoring (s : State) :
  tick_step s (state_of (_finish_monitoring s)).
Proof.
  unfold _finish_monitoring.
  apply tick_step_bind; [apply tick_step_refl|]. intros indices s1 _.
  apply tick_step_bind; [apply tick_step_for_each, tick_step_finish_function|].
  intros _ s2 _.
  apply tick_step_bind; [by apply tick_step_frame|].
  intros _ s3 _. apply tick_step_info.
Qed.

Lemma tick_step_cascade_function (i : nat) (s : State) :
  tick_step s (state_of (cascade_function i s)).
Proof.
  unfold cascade_function.
  apply tick_step_bind; [apply tick_step_function_at|]. intros f s1 _.
  destruct (negb (has_completed (status f))).
  - apply tick_step_bind; [by apply tick_step_set_status_at|].
    intros _ s3 _. apply tick_step_info.
  - apply tick_step_refl.
Qed.

Lemma tick_step_cascade_failure (s : State) :
  tick_step s (state_of (_cascade_failure s)).
Proof.
  unfold _cascade_failure.
  apply tick_step_bind; [apply tick_step_refl|]. intros indices s1 _.
  apply tick_step_for_each, tick_step_cascade_function.
Qed.

Lemma tick_step_prev_status (name : string) (s : State) :
  tick_step s (state_of (prev_status name s)).
Proof.
  unfold prev_status. destruct (_prev_statuses s !! name); apply tick_step_refl.
Qed.

Lemma tick_step_monitor_functions (indices : list nat) (s : State) :
  tick_step s (state_of (monitor_functions set_iter w indices s)).
Proof.
  revert s. induction indices as [|i rest IH]; intros s; simpl.
  - apply tick_step_refl.
  - apply tick_step_bind; [apply tick_step_function_at|].
    intros f s1 [-> Hf]%function_at_inv.
    apply tick_step_bind.
    { unfold when, pending. case_bool_decide as Hp.
      - eapply tick_step_handle_pending; eauto.
      - apply tick_step_refl. }
    intros _ s2 _.
    apply tick_step_bind; [apply tick_step_function_at|]. intros f2 s3 _.
    apply tick_step_bind; [apply tick_step_prev_status|]. intros prev s4 _.
    apply tick_step_bind.
    { unfold when. destruct (bool_decide (prev ≠ status f2)); [|apply tick_step_refl].
      apply tick_step_bind; [apply tick_step_log_status_change|].
      intros _ s5 _. by apply tick_step_frame. }
    intros _ s5 _.
    destruct (failed (status f2)); [apply tick_step_refl|apply IH].
Qed.

Lemma tick_step_monitor_workflow_execution (s : State) :
  tick_step s (state_of (_monitor_workflow_execution set_iter w s)).
Proof.
  unfold _monitor_workflow_execution.
  apply tick_step_bind; [apply tick_step_refl|]. intros indices s1 _.
  apply tick_step_bind; [apply tick_step_monitor_functions|].
  intros workflow_failed s2 _.
  apply tick_step_bind; [apply tick_step_refl|]. intros all_completed s3 _.
  destruct all_completed.
  - apply tick_step_bind; [apply tick_step_info|]. intros _ s4 _.
    apply tick_step_refl.
  - destruct workflow_failed; [|apply tick_step_refl].
    apply tick_step_bind; [apply tick_step_cascade_failure|]. intros _ s4 _.
    apply tick_step_refl.
Qed.

End TickSteps.

Section RunSteps.
  Import WorkflowRunner Steps.

Variable set_iter : gset string -> list string.
Variable w : Workflow.
Variable sleep : nat -> State -> State.
Hypothesis sleep_respects : other_threads_respect sleep.

Let tick : M unit := _monitor_workflow_execution set_iter w.

Lemma run_step_frame (s s' : State) :
  _functions s' = _functions s -> submitted s' = submitted s -> run_step s s'.
Proof.
  intros Hf Hs. split.
  - rewrite Hf. apply functions_step_refl.
  - exists []. rewrite app_nil_r. split; [done|constructor].
Qed.

Lemma run_step_sleep (k : nat) (s : State) : run_step s (sleep k s).
Proof.
  destruct (sleep_respects k s) as [Hf Hs]. split; [done|].
  exists []. rewrite app_nil_r. split; [done|constructor].
Qed.

Lemma run_step_finish (s : State) : run_step s (final_state (finish s)).
Proof.
  unfold finish. pose proof (tick_step_finish_monitoring s) as [H _].
  destruct (_finish_monitoring s); exact H.
Qed.

Lemma run_step_monitoring_loop (fuel k : nat) (s : State) :
  run_step s (final_state (monitoring_loop w tick sleep fuel k s)).
Proof.
  revert k s. induction fuel as [|fuel IH]; intros k s.
  { cbn [monitoring_loop].
    destruct (negb (_did_timeout w s) && negb (_shutdown_requested s));
      [apply run_step_refl|apply run_step_finish]. }
  cbn [monitoring_loop].
  destruct (negb (_did_timeout w s) && negb (_shutdown_requested s));
    [|apply run_step_finish].
  pose proof (tick_step_monitor_workflow_execution set_iter w s) as [Htick _].
  fold tick in Htick.
  destruct (tick s) as [[] s'|e s']; simpl in Htick.
  - eapply run_step_trans; [exact Htick|].
    eapply run_step_trans; [|apply IH].
    eapply run_step_trans; [|apply run_step_sleep].
    by apply run_step_frame.
  - destruct e; try exact Htick.
    eapply run_step_trans; [exact Htick|apply run_step_finish].
Qed.

Lemma run_step_start_monitoring (fuel : nat) (s : State) :
  run_step s (final_state (_start_monitoring w tick sleep fuel s)).
Proof.
  unfold _start_monitoring.
  eapply run_step_trans; [|apply run_step_monitoring_loop].
  by apply run_step_frame.
Qed.

Lemma run_step_keeps_final (s s' : State) (i : nat) (f : FaaSrFunction) :
  run_step s s' ->
  _functions s !! i = Some f -> has_final_state (status f) = true ->
  exists f', _functions s' !! i = Some f'
             /\ function_name f' = function_name f /\ status f' = status f.
Proof.
  intros [Hstep _] Hi Hfinal.
  destruct (Forall2_lookup_l _ _ _ _ _ Hstep Hi) as (f' & Hf' & Hn & Hfin & _).
  exists f'. auto.
Qed.

Lemma run_step_keeps_entry_point (s s' : State) :
  run_step s s' -> entry_point_settled w s -> entry_point_settled w s'.
Proof.
  intros [Hstep (new & Hsub & Hnew)] [Hentry Hsubmitted]. split.
  - apply Forall_lookup. intros i f' Hi Hname.
    destruct (Forall2_lookup_r _ _ _ _ _ Hstep Hi) as (f & Hf & Hn & _ & Hp).
    apply Hp. eapply Forall_lookup_1 in Hentry; eauto.
    apply Hentry. congruence.
  - rewrite Hsub. apply Forall_app. split; [done|].
    eapply Forall_impl; [exact Hnew|].
    intros name (f & Hin & Hn & Hp) Hname.
    eapply Forall_forall in Hentry; eauto.
    apply Hentry; congruence.
Qed.

End RunSteps.

Section Build.
  Import WorkflowRunner Steps.

Variable w : Workflow.

Let seeded := seeded w.

Lemma build_function_seeded (rank : string) :
  exists f, build_function w rank = Value f /\ seeded f.
Proof.
  unfold build_function, seeded, Steps.seeded, seeded_status, set_status. simpl.
  destruct (decide (extract_function_name rank = workflow_invoke w)) as [Heq|Hne].
  - eexists. split; [reflexivity|]. simpl. by rewrite decide_True.
  - eexists. split; [reflexivity|]. simpl. by rewrite decide_False.
Qed.

Lemma dict_set_seeded (f : FaaSrFunction) (fs : list FaaSrFunction) :
  seeded f -> Forall seeded fs -> Forall seeded (dict_set f fs).
Proof.
  intros Hf Hfs. induction Hfs as [|g fs Hg Hfs IH]; simpl.
  - by constructor.
  - destruct (decide (function_name g = function_name f)); constructor; auto.
Qed.

Lemma build_all_seeded (names : list string) (fs : list FaaSrFunction) :
  Forall seeded fs ->
  exists fs', build_all w names fs = Value fs' /\ Forall seeded fs'.
Proof.
  revert fs. induction names as [|rank rest IH]; intros fs Hfs; simpl.
  - eauto.
  - destruct (build_function_seeded rank) as (f & -> & Hf).
    apply IH. by apply dict_set_seeded.
Qed.

Lemma start_seeded (now : Z) :
  exists s0, _start w now = Value s0
             /\ Forall seeded (_functions s0) /\ submitted s0 = [].
Proof.
  unfold _start, _build_functions.
  destruct (build_all_seeded (concat (_iter_ranks w <$> function_names w)) [])
    as (fs & -> & Hfs); [constructor|].
  eexists. split; [reflexivity|]. done.
Qed.

Lemma seeded_entry_point_settled (s : State) :
  Forall seeded (_functions s) -> submitted s = [] -> entry_point_settled w s.
Proof.
  intros Hseeded Hsub. split; [|rewrite Hsub; constructor].
  eapply Forall_impl; [exact Hseeded|].
  intros f Hf Hname. unfold seeded, Steps.seeded in Hf. rewrite Hf. unfold seeded_status.
  rewrite decide_True by done. done.
Qed.

End Build.

Section MonitorClaims.
  Import WorkflowRunner Steps RunnerScenarios.

Lemma quiet_sleep_respects (w : Workflow) : other_threads_respect (quiet_sleep w).
Proof. intros k s. split; [apply functions_step_refl|reflexivity]. Qed.

(** C3: an instance whose status is final keeps that status through a
    tick, through the failure cascade and through the finalization step;
    and it keeps it through the whole run of the monitoring thread,
    however long the run is looked at and however it ends, when the other
    threads do not overwrite a final status either. *)
Theorem final_status_is_immutable
    (set_iter : gset string -> list string) (w : Workflow)
    (s : State) (i : nat) (f : FaaSrFunction) :
  _functions s !! i = Some f ->
  has_final_state (status f) = true ->
  same_status_at i f (state_of (_monitor_workflow_execution set_iter w s))
  /\ same_status_at i f (state_of (_cascade_failure s))
  /\ same_status_at i f (state_of (_finish_monitoring s))
  /\ (forall sleep fuel,
        other_threads_respect sleep ->
        same_status_at i f
          (final_state (_start_monitoring w (_monitor_workflow_execution set_iter w)
                          sleep fuel s))).
Proof.
  intros Hi Hfinal.
  pose proof (tick_step_monitor_workflow_execution set_iter w s) as [Htick _].
  pose proof (tick_step_cascade_failure s) as [Hcascade _].
  pose proof (tick_step_finish_monitoring s) as [Hfinish _].
  repeat split; try (eapply run_step_keeps_final; eauto).
  intros sleep fuel Hsleep.
  pose proof (run_step_start_monitoring set_iter w sleep Hsleep fuel s) as Hrun.
  eapply run_step_keeps_final; eauto.
Qed.

Lemma final_status_is_immutable_witness :
  status <$> (_functions failed_state !! 0) = Some FunctionStatus.FAILED
  /\ has_final_state FunctionStatus.FAILED = true
  /\ exists s',
       final_state (_start_monitoring roots_workflow
                      (_monitor_workflow_execution (in_order ["A"; "B"]) roots_workflow)
                      (quiet_sleep roots_workflow) 5 failed_state) = s'
       /\ exists f', _functions s' !! 0 = Some f'
                     /\ function_name f' = "A"
                     /\ status f' = FunctionStatus.FAILED.
Proof.
  split; [reflexivity|]. split; [reflexivity|].
  eexists. split; [reflexivity|].
  exact (proj2 (proj2 (proj2
           (final_status_is_immutable (in_order ["A"; "B"]) roots_workflow
              failed_state 0
              {| function_name := "A"; status := FunctionStatus.FAILED;
                 invocations := None |} eq_refl eq_refl)))
           (quiet_sleep roots_workflow) 5 (quiet_sleep_respects roots_workflow)).
Defined.

(** C9 as stated fails: B has no invoker and is not the entry point; the
    registry is built with B pending, and the first tick submits B to the
    resolver, which answers NOT_INVOKED. *)
Lemma root_other_than_entry_point_is_resolved :
  invokers_of roots_workflow
    {| function_name := "B"; status := FunctionStatus.PENDING; invocations := None |} = ∅
  /\ exists s0,
       _start roots_workflow 0 = Value s0
       /\ status <$> _functions s0
          = [FunctionStatus.INVOKED; FunctionStatus.PENDING; FunctionStatus.PENDING]
       /\ exists s1,
            _monitor_workflow_execution (in_order ["A"; "B"]) roots_workflow s0 = Ok tt s1
            /\ submitted s1 = ["B"; "C"]
            /\ status <$> _functions s1
               = [FunctionStatus.INVOKED; FunctionStatus.NOT_INVOKED;
                  FunctionStatus.PENDING].
Proof.
  split; [by vm_compute|].
  eexists. split; [by vm_compute|]. split; [by vm_compute|].
  eexists. split; [by vm_compute|]. split; by vm_compute.
Qed.

(** C9 (as amended): the registry is always built; in it the instances of
    the entry point, the node the payload names in [FunctionInvoke], have
    status INVOKED and all the others PENDING, and nothing has been
    submitted to the resolver; and however long the monitoring thread
    runs, no instance of the entry point is pending or is submitted to
    the resolver. *)
Theorem entry_point_is_preseeded_and_never_resolved
    (set_iter : gset string -> list string) (w : Workflow)
    (sleep : nat -> State -> State) (now : Z) (fuel : nat) :
  other_threads_respect sleep ->
  exists s0,
    _start w now = Value s0
    /\ Forall (seeded w) (_functions s0)
    /\ submitted s0 = []
    /\ entry_point_settled w
         (final_state (_start_monitoring w (_monitor_workflow_execution set_iter w)
                         sleep fuel s0)).
Proof.
  intros Hsleep. destruct (start_seeded w now) as (s0 & Hstart & Hseeded & Hsub).
  exists s0. repeat split; try done.
  - eapply run_step_keeps_entry_point;
      [apply run_step_start_monitoring; done|apply seeded_entry_point_settled; done].
  - eapply run_step_keeps_entry_point;
      [apply run_step_start_monitoring; done|apply seeded_entry_point_settled; done].
Qed.

Lemma entry_point_is_preseeded_and_never_resolved_witness :
  other_threads_respect (quiet_sleep roots_workflow)
  /\ exists s0,
       _start roots_workflow 0 = Value s0
       /\ Forall (seeded roots_workflow) (_functions s0)
       /\ submitted s0 = []
       /\ entry_point_settled roots_workflow
            (final_state
               (_start_monitoring roots_workflow
                  (_monitor_workflow_execution (in_order ["A"; "B"]) roots_workflow)
                  (quiet_sleep roots_workflow) 3 s0)).
Proof.
  split; [apply quiet_sleep_respects|].
  exact (entry_point_is_preseeded_and_never_resolved (in_order ["A"; "B"])
           roots_workflow (quiet_sleep roots_workflow) 0 3
           (quiet_sleep_respects roots_workflow)).
Defined.

Lemma handle_pending_timer (set_iter : gset string -> list string) (w : Workflow)
    (s : State) (i : nat) (f : FaaSrFunction) :
  _functions s !! i = Some f ->
  let s' := state_of (_handle_pending set_iter w i s) in
  match check_ranks (_functions s) f (invoker_ranks set_iter w f) with
  | Value InvocationStatus.INVOKED | Value InvocationStatus.NOT_INVOKED =>
      seconds_since_last_change s' = 0%Z /\ last_change_time s' = clock s
  | _ =>
      seconds_since_last_change s' = seconds_since_last_change s
      /\ last_change_time s' = last_change_time s
  end.
Proof.
  intros Hi. unfold _handle_pending, bind, function_at. rewrite Hi.
  unfold _check_invocation_status.
  destruct (check_ranks (_functions s) f (invoker_ranks set_iter w f)) as [[]|e];
    simpl; try done.
  all: unfold set_status_at, bind, function_at; simpl; rewrite Hi;
    unfold set_status; destruct (has_final_state (status f)); simpl; done.
Qed.

(** C5 as stated fails.  A tick observes that f went from INVOKED to
    RUNNING and logs the change, and the timer still reads 5 afterwards;
    and in a run with a timeout of 10 seconds in which f starts running
    after 5 seconds, the loop ends by timeout, with f set to TIMEOUT, when
    the clock reads 11. *)
Lemma status_change_does_not_reset_timer :
  (let s' := state_of (_monitor_workflow_execution (in_order []) single_workflow
                         running_state) in
   _prev_statuses running_state !! "f" = Some FunctionStatus.INVOKED
   /\ status <$> _functions s' = [FunctionStatus.RUNNING]
   /\ logged s' = [Function_running "f"]
   /\ seconds_since_last_change s' = 5%Z)
  /\ exists s0 s',
       _start single_workflow 0 = Value s0
       /\ _start_monitoring single_workflow
            (_monitor_workflow_execution (in_order []) single_workflow)
            starts_running 20 s0 = Finished s'
       /\ logged s' = [Monitoring_workflow_execution; Function_running "f";
                       Function_timed_out "f"; Monitoring_complete]
       /\ status <$> _functions s' = [FunctionStatus.TIMEOUT]
       /\ clock s' = 11%Z.
Proof.
  split; [repeat split; by vm_compute|].
  eexists. eexists. split; [by vm_compute|]. split; [by vm_compute|].
  repeat split; by vm_compute.
Qed.

(** C5 (as amended): a tick in which no instance is pending leaves the
    timer as it is, whatever status changes it observes; handling a
    pending instance resets the timer to zero exactly when the resolver
    decides INVOKED or NOT_INVOKED; [_increment_timer] sets the timer to
    the clock time elapsed since the last reset; and the loop leaves for
    the finalization by timeout exactly when the timer has reached
    [timeout]. *)
Theorem timer_is_reset_by_resolver_decisions_only
    (set_iter : gset string -> list string) (w : Workflow) :
  (forall s,
      no_pending s ->
      let s' := state_of (_monitor_workflow_execution set_iter w s) in
      last_change_time s' = last_change_time s
      /\ seconds_since_last_change s' = seconds_since_last_change s)
  /\ (forall s i f,
        _functions s !! i = Some f ->
        let s' := state_of (_handle_pending set_iter w i s) in
        match check_ranks (_functions s) f (invoker_ranks set_iter w f) with
        | Value InvocationStatus.INVOKED | Value InvocationStatus.NOT_INVOKED =>
            seconds_since_last_change s' = 0%Z /\ last_change_time s' = clock s
        | _ =>
            seconds_since_last_change s' = seconds_since_last_change s
            /\ last_change_time s' = last_change_time s
        end)
  /\ (forall s,
        seconds_since_last_change (state_of (_increment_timer s))
        = (clock s - last_change_time s)%Z)
  /\ (forall s, _did_timeout w s = true <-> (timeout w <= seconds_since_last_change s)%Z)
  /\ (forall tick sleep fuel k s,
        _did_timeout w s = true ->
        monitoring_loop w tick sleep fuel k s = finish s).
Proof.
  split.
  { intros s Hno. apply (tick_step_monitor_workflow_execution set_iter w s). done. }
  split; [apply handle_pending_timer|].
  split; [reflexivity|].
  split; [intros s; unfold _did_timeout; apply Z.leb_le|].
  intros tick sleep fuel k s Hto.
  destruct fuel; simpl; rewrite Hto; reflexivity.
Qed.

(** C2 as stated fails: a store error that escapes from the first tick
    ends the monitoring thread; no further tick is made, the
    finalization does not run and the run is not marked complete. *)
Lemma store_error_kills_monitor :
  exists s',
    _start_monitoring single_workflow failing_tick (quiet_sleep single_workflow)
      5 running_state = Died store_error s'
    /\ logged s' = [Monitoring_workflow_execution]
    /\ status <$> _functions s' = [FunctionStatus.RUNNING]
    /\ _monitoring_complete s' = false.
Proof. eexists. split; [by vm_compute|]. repeat split; by vm_compute. Qed.

(** C2 (as amended): the monitoring loop catches [StopMonitoring] only.
    When a store error escapes from a tick, the error leaves
    [_start_monitoring] with the state as the tick left it: the loop does
    not go on to another tick and [_finish_monitoring] is not called. *)
Theorem store_error_in_tick_ends_monitoring
    (w : Workflow) (tick : M unit) (sleep : nat -> State -> State)
    (fuel k : nat) (s s' : State) (e : S3Client.Exn) :
  _did_timeout w s = false ->
  _shutdown_requested s = false ->
  tick s = Err (StoreError e) s' ->
  monitoring_loop w tick sleep (S fuel) k s = Died (StoreError e) s'.
Proof.
  intros Hto Hsd Htick. simpl. rewrite Hto, Hsd, Htick. reflexivity.
Qed.

Lemma store_error_in_tick_ends_monitoring_witness :
  _did_timeout single_workflow running_state = false
  /\ _shutdown_requested running_state = false
  /\ monitoring_loop single_workflow failing_tick (quiet_sleep single_workflow)
       3 0 running_state = Died store_error running_state.
Proof.
  split; [reflexivity|]. split; [reflexivity|].
  exact (store_error_in_tick_ends_monitoring single_workflow failing_tick
           (quiet_sleep single_workflow) 2 0 running_state running_state
           (S3Client.S3ClientError S3Client.Boto3_client_error_getting_object "500")
           eq_refl eq_refl eq_refl).
Defined.

End MonitorClaims.

Section FailureCascade.
  Import WorkflowRunner Steps RunnerScenarios.

Variable set_iter : gset string -> list string.
Variable w : Workflow.















End FailureCascade.

Section FailureCascadeWitness.
  Import WorkflowRunner Steps RunnerScenarios.


End FailureCascadeWitness.

Section LogMonitorLife.
  Import FunctionLogger LoggerViews.

Lemma events_call_callbacks (ev : LogEvent) (l : FaaSrFunctionLogger) :
  events (_call_callbacks ev l) = (events l ++ [ev])%list.
Proof. unfold events. simpl. by rewrite map_app. Qed.

Lemma repeat_snoc {A} (x : A) (n : nat) : (repeat x n ++ [x])%list = repeat x (S n).
Proof. induction n; simpl; [done|]. by rewrite IHn. Qed.

Lemma new_is_well_formed (key : string) (stream : bool) : well_formed (new key stream).
Proof. exists 0. simpl. done. Qed.

Lemma stop_well_formed (l : FaaSrFunctionLogger) : well_formed l -> well_formed (stop l).
Proof.
  intros (n & Hev & Hn & Hlogs & Hc). exists n. simpl.
  repeat split; try done. by apply Hc.
Qed.

Lemma poll_well_formed (s3 : S3Client.FaaSrS3Client) (l l' : FaaSrFunctionLogger) :
  well_formed l -> poll s3 l = Value l' -> well_formed l'.
Proof.
  intros (n & Hev & Hn & Hlogs & Hc). unfold poll.
  destruct (_logs_complete l) eqn:Hcomplete.
  { intros [= <-]. exists n. rewrite Hcomplete. done. }
  destruct (_logs_started l) eqn:Hstarted; simpl.
  - destruct (_get_logs s3 l) as [content|e]; [|discriminate].
    destruct (new_suffix l content) as [|x new] eqn:Hnew; simpl.
    + rewrite andb_true_r. destruct (_stop_requested l) eqn:Hstop; intros [= <-].
      * exists n. rewrite events_call_callbacks.
        change (events (_set_logs_complete l)) with (events l).
        rewrite Hev. simpl. rewrite Hstarted.
        unfold expected_events. rewrite app_nil_r.
        repeat split; done.
      * exists n. rewrite Hcomplete, Hstarted. done.
    + rewrite andb_false_r. intros [= <-].
      exists (S n).
      assert (Hevents : events (_call_callbacks LOG_UPDATED (_update_logs (x :: new) l))
                        = expected_events true false (S n)).
      { rewrite events_call_callbacks.
        change (events (_update_logs (x :: new) l)) with (events l).
        rewrite Hev. unfold expected_events. rewrite !app_nil_r.
        rewrite <- app_comm_cons, repeat_snoc. done. }
      destruct (stream_logs l); simpl; rewrite ?Hstarted, ?Hcomplete;
        (split; [exact Hevents|]); rewrite length_app; simpl;
        (split; [lia|]); split; done.
  - destruct (_check_for_logs s3 l) as [[|]|e]; [| |discriminate]; intros [= <-].
    + exists 0. rewrite events_call_callbacks.
      change (events (_set_logs_started l)) with (events l).
      rewrite Hev. simpl. rewrite Hcomplete.
      repeat split; try done; try lia.
    + exists n. rewrite Hcomplete, Hstarted. done.
Qed.

Lemma act_well_formed (a : Action) (l l' : FaaSrFunctionLogger) :
  well_formed l -> act a l = Value l' -> well_formed l'.
Proof.
  destruct a as [s3|]; simpl.
  - apply poll_well_formed.
  - intros Hwf [= <-]. by apply stop_well_formed.
Qed.

Lemma history_well_formed (schedule : list Action) (l : FaaSrFunctionLogger) :
  well_formed l -> Forall well_formed (history schedule l).
Proof.
  revert l. induction schedule as [|a rest IH]; intros l Hwf; simpl; [constructor|].
  destruct (act a l) as [l'|e] eqn:Hact; [|constructor].
  pose proof (act_well_formed a l l' Hwf Hact). constructor; auto.
Qed.

(** X1: whatever the store shows and whenever [stop()] is called, the
    events a monitor has fired at any moment are LOG_CREATED once (when it
    has started), then LOG_UPDATED some number of times, then
    LOG_COMPLETE once (when it is complete), and nothing else; every
    LOG_UPDATED went with at least one new buffered line; nothing is
    buffered before the start; and the monitor is complete only if it has
    started and was asked to stop. *)
Theorem log_monitor_state_machine
    (schedule : list Action) (key : string) (stream : bool) :
  Forall
    (fun l =>
       exists n,
         events l = expected_events (_logs_started l) (_logs_complete l) n
         /\ n <= length (_logs l)
         /\ (_logs_started l = false -> _logs l = [])
         /\ (_logs_complete l = true ->
             _logs_started l = true /\ _stop_requested l = true))
    (history schedule (new key stream)).
Proof. apply (history_well_formed schedule), new_is_well_formed. Qed.

Lemma act_buffer_grows (a : Action) (l l' : FaaSrFunctionLogger) :
  act a l = Value l' -> _logs l `prefix_of` _logs l'.
Proof.
  destruct a as [s3|]; simpl.
  - intros Hpoll.
    destruct (poll_appends_new_suffix _ _ _ Hpoll) as [->|(content & _ & ->)].
    + done.
    + by apply prefix_app_r.
  - intros [= <-]. done.
Qed.

(** X2: the buffer is append-only: at every later moment of the
    monitor's life, whatever the store returns, the buffer begins with the
    lines it held before, in the same order. *)
Theorem log_buffer_is_append_only
    (schedule : list Action) (self : FaaSrFunctionLogger) :
  Forall (fun later => _logs self `prefix_of` _logs later) (history schedule self).
Proof.
  revert self. induction schedule as [|a rest IH]; intros self; simpl; [constructor|].
  destruct (act a self) as [l'|e] eqn:Hact; [|constructor].
  pose proof (act_buffer_grows a self l' Hact) as Hgrow.
  constructor; [done|].
  eapply Forall_impl; [apply IH|]. intros later Hlater. by etrans.
Qed.

(** X3: a poll cycle raises exactly when the one store call it makes
    raises: the existence check before the start, the read after it; the
    exception is the adapter's, unchanged, and it ends the monitor's
    thread.  A complete monitor makes no store call and never raises. *)
Theorem log_poll_raises_iff_store_call_raises
    (s3 : S3Client.FaaSrS3Client) (self : FaaSrFunctionLogger) (e : S3Client.Exn)
    (rest : list Action) :
  (poll s3 self = Raises e <->
     _logs_complete self = false
     /\ (if _logs_started self
         then S3Client.get_object s3 (logs_key self) = Raises e
         else S3Client.object_exists s3 (logs_key self) = Raises e))
  /\ (poll s3 self = Raises e -> run (Poll s3 :: rest) self = Raises e).
Proof.
  split.
  - unfold poll, _get_logs, _check_for_logs.
    destruct (_logs_complete self); [split; [discriminate|intros [? _]; discriminate]|].
    destruct (_logs_started self); simpl.
    + destruct (S3Client.get_object s3 (logs_key self)) as [content|e'].
      * split; [discriminate|intros [_ ?]; discriminate].
      * split; [intros [= ->]; done|intros [_ [= ->]]; done].
    + destruct (S3Client.object_exists s3 (logs_key self)) as [[|]|e'].
      * split; [discriminate|intros [_ ?]; discriminate].
      * split; [discriminate|intros [_ ?]; discriminate].
      * split; [intros [= ->]; done|intros [_ [= ->]]; done].
  - intros Hpoll. simpl. by rewrite Hpoll.
Qed.

End LogMonitorLife.

Section LogLines.
  Import FunctionLogger LoggerViews.

Lemma lstrip_blank (s : string) :
  Forall (fun c => isspace c = true) (chars s) -> lstrip s = EmptyString.
Proof.
  induction s as [|c s IH]; simpl; [done|].
  intros [Hc Hs]%Forall_cons. rewrite Hc. auto.
Qed.

Lemma parse_lines_blank (content : string) :
  Forall (fun c => isspace c = true) (chars content) ->
  parse_lines content = [EmptyString].
Proof.
  intros Hblank. unfold parse_lines, strip. by rewrite lstrip_blank.
Qed.

(** X4: an artifact that exists but holds only whitespace (an empty
    object, for instance) is buffered as one empty line, with a
    LOG_UPDATED; from then on the first line of the artifact is taken as
    read, so when text arrives its first line never enters the buffer. *)
Theorem blank_artifact_costs_the_first_line
    (self : FaaSrFunctionLogger) (blank later x1 : string) (xs : list string) :
  Forall (fun c => isspace c = true) (chars blank) ->
  _logs_started self = true ->
  _logs_complete self = false ->
  _logs self = [] ->
  parse_lines later = x1 :: xs ->
  exists l1,
    poll (store_with blank) self = Value l1
    /\ _logs l1 = [EmptyString]
    /\ events l1 = (events self ++ [LOG_UPDATED])%list
    /\ _logs_complete l1 = false
    /\ exists l2,
         poll (store_with later) l1 = Value l2
         /\ _logs l2 = EmptyString :: xs.
Proof.
  intros Hblank Hstarted Hcomplete Hlogs Hlater.
  unfold poll, _get_logs, new_suffix. simpl.
  rewrite Hcomplete, Hstarted, Hlogs, (parse_lines_blank blank Hblank). simpl.
  rewrite andb_false_r.
  eexists. split; [reflexivity|].
  destruct (stream_logs self) eqn:Hstream; simpl;
    rewrite ?Hlogs, ?Hcomplete, ?Hstarted, ?Hstream, ?Hlater; simpl;
    (split; [done|]); (split; [unfold events; simpl; by rewrite map_app|]);
    (split; [done|]).
  all: destruct xs as [|x2 xs]; simpl; rewrite ?Hstream, ?andb_false_r, ?andb_true_r;
    destruct (_stop_requested self); simpl; eexists; (split; [reflexivity|]);
    simpl; rewrite ?Hlogs; reflexivity.
Qed.

Lemma blank_artifact_costs_the_first_line_witness :
  let self := _call_callbacks LOG_CREATED (_set_logs_started (new "logs/f.txt" false)) in
  Forall (fun c => isspace c = true) (chars Scenarios.nl)
  /\ parse_lines Scenarios.two_lines = ["start"; "step 1"]
  /\ exists l1,
       poll (store_with Scenarios.nl) self = Value l1
       /\ _logs l1 = [EmptyString]
       /\ exists l2,
            poll (store_with Scenarios.two_lines) l1 = Value l2
            /\ _logs l2 = [EmptyString; "step 1"].
Proof.
  intros self.
  assert (Hblank : Forall (fun c => isspace c = true) (chars Scenarios.nl))
    by (repeat constructor).
  split; [exact Hblank|]. split; [reflexivity|].
  destruct (blank_artifact_costs_the_first_line self Scenarios.nl Scenarios.two_lines
              "start" ["step 1"] Hblank eq_refl eq_refl eq_refl eq_refl)
    as (l1 & Hp1 & Hl1 & _ & _ & l2 & Hp2 & Hl2).
  exists l1. split; [exact Hp1|]. split; [exact Hl1|].
  exists l2. split; [exact Hp2|exact Hl2].
Defined.

Lemma split_line (sep : ascii) (line : string) :
  sep ∉ chars line -> split sep line = [line].
Proof.
  induction line as [|c line IH]; simpl; [done|].
  intros Hnot. apply not_elem_of_cons in Hnot as [Hc Hline].
  destruct (Ascii.eqb_spec c sep) as [->|_]; [done|].
  by rewrite IH.
Qed.

Lemma split_line_sep (sep : ascii) (line rest : string) :
  sep ∉ chars line ->
  split sep (line ++ String sep rest) = line :: split sep rest.
Proof.
  induction line as [|c line IH]; simpl.
  - intros _. by rewrite Ascii.eqb_refl.
  - intros Hnot. apply not_elem_of_cons in Hnot as [Hc Hline].
    destruct (Ascii.eqb_spec c sep) as [->|_]; [done|].
    by rewrite IH.
Qed.

Lemma split_join (sep : ascii) (lines : list string) :
  lines <> [] ->
  Forall (fun line => sep ∉ chars line) lines ->
  split sep (join (String sep EmptyString) lines) = lines.
Proof.
  induction lines as [|line [|next rest] IH]; [done| |].
  - intros _ [Hline _]%Forall_cons. by apply split_line.
  - intros _ [Hline Hrest]%Forall_cons.
    change (join (String sep EmptyString) (line :: next :: rest))
      with (line ++ String sep (join (String sep EmptyString) (next :: rest))).
    rewrite split_line_sep by done. f_equal. by apply IH.
Qed.

Lemma ends_nonspace_app (a b : string) :
  b <> EmptyString -> ends_nonspace (a ++ b) = ends_nonspace b.
Proof.
  intros Hb. induction a as [|c a IH]; [done|].
  change (String c a ++ b) with (String c (a ++ b)).
  cbn [ends_nonspace]. destruct (a ++ b) eqn:Hab; [|done].
  destruct a; simpl in Hab; [contradiction|discriminate].
Qed.

Lemma rstrip_keeps (s : string) : ends_nonspace s = true -> rstrip s = s.
Proof.
  induction s as [|c s IH]; [done|].
  cbn [ends_nonspace rstrip]. destruct s as [|c' s'].
  - simpl. intros ->%negb_true_iff. done.
  - intros Hends. rewrite (IH Hends). done.
Qed.

Lemma strip_keeps (s : string) :
  starts_nonspace s = true -> ends_nonspace s = true -> strip s = s.
Proof.
  intros Hstart Hend. unfold strip.
  destruct s as [|c s]; [done|]. simpl in Hstart.
  apply negb_true_iff in Hstart. cbn [lstrip]. rewrite Hstart.
  by apply rstrip_keeps.
Qed.

Lemma join_starts_nonspace (sep : string) (line : string) (rest : list string) :
  starts_nonspace line = true -> starts_nonspace (join sep (line :: rest)) = true.
Proof.
  destruct line as [|c line]; [done|]. intros Hc.
  destruct rest; exact Hc.
Qed.

Lemma join_ends_nonspace (sep : string) (lines : list string) (line : string) :
  last lines = Some line -> ends_nonspace line = true ->
  ends_nonspace (join sep lines) = true.
Proof.
  induction lines as [|l [|next rest] IH]; [done| |].
  - intros [= ->]. done.
  - intros Hlast Hline.
    change (join sep (l :: next :: rest)) with (l ++ sep ++ join sep (next :: rest)).
    specialize (IH Hlast Hline).
    assert (Hne : join sep (next :: rest) <> EmptyString)
      by (intros Heq; rewrite Heq in IH; discriminate).
    rewrite ends_nonspace_app.
    + destruct sep as [|c sep]; [exact IH|].
      rewrite ends_nonspace_app; done.
    + destruct sep; [done|discriminate].
Qed.

(** X5: [logs_content] and the parsing of a fetched artifact are inverse
    to each other on a buffer whose lines contain no newline, whose first
    line begins and whose last line ends with a character that is not
    whitespace: an artifact holding [logs_content] is read back as the
    very lines of the buffer. *)
Theorem logs_content_round_trip
    (self : FaaSrFunctionLogger) (first final : string) :
  head (_logs self) = Some first ->
  last (_logs self) = Some final ->
  starts_nonspace first = true ->
  ends_nonspace final = true ->
  Forall (fun line => newline ∉ chars line) (_logs self) ->
  parse_lines (logs_content self) = _logs self.
Proof.
  intros Hhead Hlast Hfirst Hfinal Hlines.
  unfold parse_lines, logs_content.
  destruct (_logs self) as [|line rest] eqn:Hlogs; [discriminate|].
  injection Hhead as ->.
  rewrite strip_keeps.
  - by apply split_join.
  - by apply join_starts_nonspace.
  - by eapply join_ends_nonspace.
Qed.

Lemma logs_content_round_trip_witness :
  let self := _update_logs ["start"; " step 1 "; "done"] (new "logs/f.txt" false) in
  head (_logs self) = Some "start"
  /\ last (_logs self) = Some "done"
  /\ Forall (fun line => newline ∉ chars line) (_logs self)
  /\ parse_lines (logs_content self) = ["start"; " step 1 "; "done"].
Proof.
  intros self.
  assert (Hlines : Forall (fun line => newline ∉ chars line) (_logs self)).
  { subst self. simpl.
    repeat (apply List.Forall_cons; [apply (bool_decide_unpack _); by vm_compute|]).
    apply List.Forall_nil. }
  split; [reflexivity|]. split; [reflexivity|]. split; [exact Hlines|].
  exact (logs_content_round_trip self "start" "done"
           eq_refl eq_refl eq_refl eq_refl Hlines).
Defined.

End LogLines.

Section Setup.
  Import S3Client S3ClientSetup.

(** X6: the constructor returns a client exactly when the workflow data
    has the datastore entry (the one named by [DefaultDataStore], or
    ["S3"] when that key is absent) with a region and a bucket and
    [boto3.client] returns; the client then reads from that bucket
    through the throttled client.  An [Endpoint] that is absent or empty
    is not passed on.  Every failure is an
    [S3ClientInitializationError]; a missing bucket is only noticed after
    the boto3 client was created. *)
Theorem s3_client_init_contract
    (boto3_client : string -> string -> string -> option string -> Response Boto3Client)
    (ThrottledClient : Boto3Client -> Boto3Client)
    (workflow_data : WorkflowData) (access_key secret_key : string) :
  (forall client,
      init boto3_client ThrottledClient workflow_data access_key secret_key
        = Value client <->
      exists stores config region bucket raw,
        DataStores workflow_data = Some stores
        /\ stores !! default "S3" (DefaultDataStore workflow_data) = Some config
        /\ config !! "Region" = Some region
        /\ config !! "Bucket" = Some bucket
        /\ boto3_client access_key secret_key region (endpoint_url config)
           = Returned raw
        /\ client = wrap ThrottledClient bucket raw)
  /\ (forall config e,
        endpoint_url config = Some e <->
        config !! "Endpoint" = Some e /\ e <> EmptyString)
  /\ (forall stores config region code,
        DataStores workflow_data = Some stores ->
        stores !! default "S3" (DefaultDataStore workflow_data) = Some config ->
        config !! "Region" = Some region ->
        boto3_client access_key secret_key region (endpoint_url config)
          = ClientError code ->
        init boto3_client ThrottledClient workflow_data access_key secret_key
          = Raises (S3ClientInitializationError Boto3_client_error code)).
Proof.
  split; [|split].
  - intros client. unfold init.
    destruct (DataStores workflow_data) as [stores|].
    2: { split; [discriminate|]. intros (? & ? & ? & ? & ? & ? & _). discriminate. }
    destruct (stores !! default "S3" (DefaultDataStore workflow_data)) as [config|] eqn:Hc.
    2: { split; [discriminate|].
         intros (? & ? & ? & ? & ? & [= <-] & ? & _). congruence. }
    destruct (config !! "Region") as [region|] eqn:Hr.
    2: { split; [discriminate|].
         intros (? & ? & ? & ? & ? & [= <-] & ? & ? & _). congruence. }
    destruct (boto3_client access_key secret_key region (endpoint_url config))
      as [raw|code|what] eqn:Hb.
    + destruct (config !! "Bucket") as [bucket|] eqn:Hbucket.
      * split.
        -- intros [= <-]. exists stores, config, region, bucket, raw. done.
        -- intros (? & ? & ? & ? & ? & [= <-] & ? & ? & ? & ? & ->). congruence.
      * split; [discriminate|].
        intros (? & ? & ? & ? & ? & [= <-] & ? & ? & ? & _). congruence.
    + split; [discriminate|].
      intros (? & ? & ? & ? & ? & [= <-] & ? & ? & ? & ? & _). congruence.
    + split; [discriminate|].
      intros (? & ? & ? & ? & ? & [= <-] & ? & ? & ? & ? & _). congruence.
  - intros config e. unfold endpoint_url.
    destruct (config !! "Endpoint") as [[|c rest]|].
    + split; [discriminate|]. intros [[= <-] ?]. done.
    + split; [intros [= <-]; done|]. intros [[= <-] _]. done.
    + split; [discriminate|]. intros [? _]. discriminate.
  - intros stores config region code Hs Hc Hr Hb. unfold init.
    rewrite Hs, Hc, Hr, Hb. done.
Qed.

End Setup.

Section EnvironmentCheck.
  Import Environment.

(** X7: the environment check passes exactly when every required
    variable is set to a string that is not empty; otherwise it raises
    with the list of the required variables that are unset or empty, in
    the order of [REQUIRED_ENV_VARS]. *)
Theorem validate_environment_contract (getenv : string -> option string) :
  (_validate_environment getenv = Value tt <->
     forall var, var ∈ REQUIRED_ENV_VARS ->
                 exists c rest, getenv var = Some (String c rest))
  /\ (forall missing,
        _validate_environment getenv
          = Raises (Missing_required_environment_variables missing) ->
        missing <> []
        /\ missing = filter (fun var => unset getenv var = true) REQUIRED_ENV_VARS
        /\ forall var, var ∈ missing <->
                       var ∈ REQUIRED_ENV_VARS
                       /\ (getenv var = None \/ getenv var = Some EmptyString)).
Proof.
  unfold _validate_environment.
  remember (filter (fun var => unset getenv var = true) REQUIRED_ENV_VARS) as missing
    eqn:Hmissing.
  assert (Hin : forall var, var ∈ missing <->
                  var ∈ REQUIRED_ENV_VARS
                  /\ (getenv var = None \/ getenv var = Some EmptyString)).
  { intros var. rewrite Hmissing, list_elem_of_filter. unfold unset.
    destruct (getenv var) as [[|c rest]|]; naive_solver. }
  split.
  - split.
    + destruct missing as [|v vs]; [|discriminate]. intros _ var Hvar.
      destruct (getenv var) as [[|c rest]|] eqn:Hget; [| eauto |].
      * exfalso. eapply elem_of_nil, Hin. eauto.
      * exfalso. eapply elem_of_nil, Hin. eauto.
    + intros Hall. destruct missing as [|v vs]; [done|]. exfalso.
      assert (Hv : v ∈ v :: vs) by apply list_elem_of_here.
      apply Hin in Hv as [Hreq Hunset].
      destruct (Hall v Hreq) as (c & rest & Hget). naive_solver.
  - intros missing' Hraise. destruct missing as [|v vs]; [discriminate|].
    injection Hraise as <-. split; [done|]. split; [done|exact Hin].
Qed.

End EnvironmentCheck.

Section WaitFor.
  Import WorkflowRunner Tester.

Lemma stops_waiting_is_final (status : FunctionStatus.t) :
  stops_waiting status = has_final_state status.
Proof. by destruct status. Qed.

(** X8: [wait_for] stops on exactly the five final statuses; it returns
    only COMPLETED or NOT_INVOKED, and it raises when the first final
    status it sees is FAILED, SKIPPED or TIMEOUT; while the instance is
    in a status that is not final it keeps waiting, and for a name that
    is not in the snapshot it raises [KeyError]. *)
Theorem wait_for_contract
    (function_name : string) (snapshots : list (gmap string FunctionStatus.t)) :
  (forall status, stops_waiting status = has_final_state status)
  /\ (forall status,
        wait_for function_name snapshots = Returns status ->
        has_completed status = true)
  /\ (forall statuses status later,
        statuses !! function_name = Some status ->
        wait_for function_name (statuses :: later) =
          match status with
          | FunctionStatus.COMPLETED | FunctionStatus.NOT_INVOKED => Returns status
          | FunctionStatus.FAILED => Function_failed_exception
          | FunctionStatus.SKIPPED => Function_skipped_exception
          | FunctionStatus.TIMEOUT => Function_timed_out_exception
          | _ => wait_for function_name later
          end)
  /\ (forall statuses later,
        statuses !! function_name = None ->
        wait_for function_name (statuses :: later) = RaisesKeyError).
Proof.
  split; [apply stops_waiting_is_final|]. split; [|split].
  - induction snapshots as [|statuses later IH]; intros status; simpl; [discriminate|].
    destruct (statuses !! function_name) as [st|]; [|discriminate].
    destruct st; simpl; try discriminate; try apply IH; by intros [= <-].
  - intros statuses status later Hst. simpl. rewrite Hst. by destruct status.
  - intros statuses later Hst. simpl. by rewrite Hst.
Qed.

End WaitFor.

Section FinishMonitoring.
  Import WorkflowRunner Finalization.

Lemma same_control_refl (s : State) : same_control s s.
Proof. by repeat split. Qed.

Lemma same_control_trans (s1 s2 s3 : State) :
  same_control s1 s2 -> same_control s2 s3 -> same_control s1 s3.
Proof. unfold same_control. intros (?&?&?&?&?) (?&?&?&?&?). repeat split; congruence. Qed.

Lemma finalize_is_final (sr : bool) (f : FaaSrFunction) :
  has_final_state (status (finalize sr f)) = true.
Proof.
  unfold finalize. destruct (has_final_state (status f)) eqn:Hf; [done|].
  by destruct sr.
Qed.

Lemma finish_function_spec (i : nat) (f : FaaSrFunction) (s : State) :
  _functions s !! i = Some f ->
  exists s',
    finish_function i s = Ok tt s'
    /\ _functions s' = <[i := finalize (_shutdown_requested s) f]> (_functions s)
    /\ _prev_statuses s' = _prev_statuses s
    /\ _monitoring_complete s' = _monitoring_complete s
    /\ same_control s s'.
Proof.
  intros Hi. unfold finish_function, bind, function_at, gets. rewrite Hi.
  unfold finalize.
  destruct (has_final_state (status f)) eqn:Hfinal; simpl.
  - eexists. split; [reflexivity|]. rewrite list_insert_id by done.
    by repeat split.
  - destruct (_shutdown_requested s) eqn:Hsr; simpl;
      unfold set_status_at, bind, function_at, set_status; rewrite Hi, Hfinal; simpl;
      eexists; (split; [reflexivity|]); by repeat split.
Qed.

Lemma finish_functions_from (suf pre : list FaaSrFunction) (s : State) :
  _functions s = (pre ++ suf)%list ->
  exists s',
    for_each finish_function (seq (length pre) (length suf)) s = Ok tt s'
    /\ _functions s' = (pre ++ (finalize (_shutdown_requested s) <$> suf))%list
    /\ _prev_statuses s' = _prev_statuses s
    /\ _monitoring_complete s' = _monitoring_complete s
    /\ same_control s s'.
Proof.
  revert pre s. induction suf as [|f rest IH]; intros pre s Hfs.
  - exists s. simpl. rewrite app_nil_r in *. split; [done|].
    split; [done|]. split; [done|]. split; [done|apply same_control_refl].
  - assert (Hi : _functions s !! length pre = Some f)
      by (rewrite Hfs; apply list_lookup_middle; done).
    destruct (finish_function_spec _ _ _ Hi) as (s1 & Hstep & Hf1 & Hp1 & Hc1 & Hctl1).
    assert (Hfs1 : _functions s1
                   = ((pre ++ [finalize (_shutdown_requested s) f]) ++ rest)%list).
    { rewrite Hf1, Hfs, insert_app_r_alt by lia.
      rewrite Nat.sub_diag. simpl. by rewrite <- app_assoc. }
    destruct (IH _ _ Hfs1) as (s2 & Hloop & Hf2 & Hp2 & Hc2 & Hctl2).
    exists s2. split.
    { cbn [length seq for_each]. unfold bind. rewrite Hstep.
      rewrite length_app in Hloop. simpl in Hloop.
      by rewrite Nat.add_1_r in Hloop. }
    split.
    { rewrite Hf2. destruct Hctl1 as (_ & _ & -> & _).
      rewrite <- app_assoc. done. }
    split; [congruence|]. split; [congruence|].
    eapply same_control_trans; eauto.
Qed.

Lemma finish_monitoring_spec (s : State) :
  exists s',
    _finish_monitoring s = Ok tt s'
    /\ _monitoring_complete s' = true
    /\ _functions s' = finalize (_shutdown_requested s) <$> _functions s
    /\ _prev_statuses s' = _prev_statuses s
    /\ same_control s s'.
Proof.
  destruct (finish_functions_from (_functions s) [] s eq_refl)
    as (s1 & Hloop & Hf1 & Hp1 & Hc1 & Hctl1).
  unfold _finish_monitoring, all_indices, bind at 1, gets.
  unfold bind at 1. simpl in Hloop. rewrite Hloop.
  eexists. split; [reflexivity|]. simpl.
  split; [done|]. split; [done|]. split; [done|].
  exact Hctl1.
Qed.

(** X9: [_finish_monitoring] always returns (it never asks [set_status]
    for an illegal transition); it marks the run complete, and in the
    registry it leaves, every instance that was final is as it was and
    every other instance is SKIPPED when a shutdown was requested and
    TIMEOUT otherwise, so that every status is final; it touches neither
    the timer nor the previous snapshot. *)
Theorem finish_monitoring_contract (s : State) :
  exists s',
    _finish_monitoring s = Ok tt s'
    /\ _monitoring_complete s' = true
    /\ _functions s' = finalize (_shutdown_requested s) <$> _functions s
    /\ Forall (fun f => has_final_state (status f) = true) (_functions s')
    /\ _prev_statuses s' = _prev_statuses s
    /\ same_control s s'.
Proof.
  destruct (finish_monitoring_spec s) as (s' & Hrun & Hc & Hf & Hp & Hctl).
  exists s'. repeat split; try done; try apply Hctl.
  rewrite Hf. apply Forall_fmap, Forall_forall. intros f _. apply finalize_is_final.
Qed.

Lemma loop_exit_spec
    (w : Workflow) (tick : M unit) (sleep : nat -> State -> State)
    (fuel k : nat) (s : State) :
  _shutdown_requested s = true \/ _did_timeout w s = true ->
  exists s',
    monitoring_loop w tick sleep fuel k s = Finished s'
    /\ _monitoring_complete s' = true
    /\ _functions s' = finalize (_shutdown_requested s) <$> _functions s.
Proof.
  intros Hexit.
  destruct (finish_monitoring_spec s) as (s' & Hrun & Hc & Hf & _).
  exists s'. split; [|done].
  assert (Hguard : negb (_did_timeout w s) && negb (_shutdown_requested s) = false).
  { destruct Hexit as [-> | ->]; [apply andb_false_r|done]. }
  destruct fuel; cbn [monitoring_loop]; rewrite Hguard; unfold finish; by rewrite Hrun.
Qed.

(** X10: when a shutdown was requested or the timer has reached the
    timeout at the top of the loop, the monitoring thread makes no
    further tick, whatever the tick would do, and ends with the
    finalization: unfinished instances become SKIPPED on shutdown and
    TIMEOUT otherwise, and the run is marked complete. *)
Theorem loop_exit_finalizes
    (w : Workflow) (tick : M unit) (sleep : nat -> State -> State)
    (fuel k : nat) (s : State) :
  _shutdown_requested s = true \/ _did_timeout w s = true ->
  exists s',
    monitoring_loop w tick sleep fuel k s = Finished s'
    /\ _monitoring_complete s' = true
    /\ _functions s' = finalize (_shutdown_requested s) <$> _functions s.
Proof. apply loop_exit_spec. Qed.

Lemma loop_exit_finalizes_witness :
  let s := _set_shutdown_requested RunnerScenarios.failed_state in
  exists s',
    monitoring_loop RunnerScenarios.roots_workflow RunnerScenarios.failing_tick
      (quiet_sleep RunnerScenarios.roots_workflow) 0 0 s = Finished s'
    /\ _monitoring_complete s' = true
    /\ status <$> _functions s'
       = [FunctionStatus.FAILED; FunctionStatus.SKIPPED; FunctionStatus.SKIPPED].
Proof.
  intros s.
  destruct (loop_exit_finalizes RunnerScenarios.roots_workflow
              RunnerScenarios.failing_tick
              (quiet_sleep RunnerScenarios.roots_workflow) 0 0 s (or_introl eq_refl))
    as (s' & Hrun & Hc & Hf).
  exists s'. split; [exact Hrun|]. split; [exact Hc|].
  rewrite Hf. reflexivity.
Defined.

(** X11: with a timeout that is zero or negative the monitoring thread
    never makes a tick: [_start_monitoring] resets the timer, finds it
    timed out and finalizes at once, so every instance that is not final,
    the entry point included, ends as TIMEOUT (SKIPPED if a shutdown was
    requested). *)
Theorem nonpositive_timeout_never_ticks
    (w : Workflow) (tick : M unit) (sleep : nat -> State -> State)
    (fuel : nat) (s : State) :
  (timeout w <= 0)%Z ->
  exists s',
    _start_monitoring w tick sleep fuel s = Finished s'
    /\ _monitoring_complete s' = true
    /\ _functions s' = finalize (_shutdown_requested s) <$> _functions s.
Proof.
  intros Htimeout. unfold _start_monitoring.
  set (s0 := state_of (bind (info Monitoring_workflow_execution)
                         (fun _ => _reset_timer) s)).
  destruct (loop_exit_spec w tick sleep fuel 0 s0) as (s' & Hrun & Hc & Hf).
  { right. unfold _did_timeout. apply Z.leb_le. simpl. lia. }
  exists s'. split; [exact Hrun|]. split; [exact Hc|]. exact Hf.
Qed.

Lemma nonpositive_timeout_never_ticks_witness :
  let w := init 0 1 ∅ RunnerScenarios.unranked "f" ["f"] in
  (timeout w <= 0)%Z
  /\ exists s',
       _start_monitoring w RunnerScenarios.failing_tick (quiet_sleep w) 0
         RunnerScenarios.running_state = Finished s'
       /\ status <$> _functions s' = [FunctionStatus.TIMEOUT].
Proof.
  intros w. split; [simpl; lia|].
  destruct (nonpositive_timeout_never_ticks w RunnerScenarios.failing_tick
              (quiet_sleep w) 0 RunnerScenarios.running_state)
    as (s' & Hrun & _ & Hf); [simpl; lia|].
  exists s'. split; [exact Hrun|]. rewrite Hf. reflexivity.
Defined.

End FinishMonitoring.

Section QuietTicks.
  Import WorkflowRunner Finalization.

Variable set_iter : gset string -> list string.
Variable w : Workflow.

Let tick : M unit := _monitor_workflow_execution set_iter w.

Lemma quiet_step_refl (s : State) : quiet_step s s.
Proof. split; [done|]. split; [done|]. split; [apply same_control_refl|done]. Qed.

Lemma quiet_step_trans (s1 s2 s3 : State) :
  quiet_step s1 s2 -> quiet_step s2 s3 -> quiet_step s1 s3.
Proof.
  intros (Hf1 & Hc1 & Hctl1 & Hp1) (Hf2 & Hc2 & Hctl2 & Hp2).
  split; [congruence|]. split; [congruence|].
  split; [eapply same_control_trans; eauto|]. auto.
Qed.

Lemma log_status_change_quiet (f : FaaSrFunction) (s : State) :
  exists s', _log_status_change f s = Ok tt s' /\ quiet_step s s'
             /\ _prev_statuses s' = _prev_statuses s.
Proof.
  unfold _log_status_change.
  repeat match goal with
         | |- context [if ?b then _ else _] => destruct b
         end;
    eexists; (split; [reflexivity|]); by repeat split.
Qed.

Lemma settled_statuses (s : State) (i : nat) (f : FaaSrFunction) :
  settled s -> _functions s !! i = Some f ->
  pending (status f) = false /\ failed (status f) = false.
Proof.
  intros Hs Hi. eapply Forall_lookup_1 in Hs as [Hp Hf]; eauto.
  unfold pending, failed. by rewrite !bool_decide_eq_false.
Qed.

Lemma monitor_functions_settled (indices : list nat) (s : State) :
  settled s -> snapshot_covers s ->
  Forall (fun i => i < length (_functions s)) indices ->
  exists s',
    monitor_functions set_iter w indices s = Ok false s' /\ quiet_step s s'.
Proof.
  revert s. induction indices as [|i rest IH]; intros s Hsettled Hcovers Hindices.
  { exists s. split; [done|apply quiet_step_refl]. }
  apply Forall_cons in Hindices as [Hi Hrest].
  destruct (lookup_lt_is_Some_2 _ _ Hi) as [f Hf].
  destruct (settled_statuses s i f Hsettled Hf) as [Hpending Hfailed].
  pose proof (Forall_lookup_1 _ _ _ _ Hcovers Hf) as [prev Hprev].
  cbn [monitor_functions]. unfold bind at 1, function_at at 1. rewrite Hf.
  rewrite Hpending. unfold bind at 1, when at 1, ret at 1.
  unfold bind at 1, function_at at 1. rewrite Hf.
  unfold bind at 1, prev_status at 1. rewrite Hprev.
  rewrite Hfailed.
  assert (Hnext : forall s1,
             quiet_step s s1 ->
             exists s', monitor_functions set_iter w rest s1 = Ok false s'
                        /\ quiet_step s s').
  { intros s1 Hq. pose proof Hq as (Hf1 & _ & _ & Hp1).
    destruct (IH s1) as (s' & Hrun & Hq').
    - unfold settled. by rewrite Hf1.
    - unfold snapshot_covers. rewrite Hf1.
      eapply Forall_impl; [exact Hcovers|]. intros g. apply Hp1.
    - by rewrite Hf1.
    - exists s'. split; [done|]. eapply quiet_step_trans; eauto. }
  unfold bind at 1, when.
  destruct (bool_decide (prev ≠ status f)).
  - destruct (log_status_change_quiet f s) as (s1 & Hlog & Hq1 & Hp1).
    unfold bind at 1. rewrite Hlog. unfold modify.
    apply Hnext.
    eapply quiet_step_trans; [exact Hq1|].
    split; [done|]. split; [done|]. split; [by repeat split|].
    simpl. intros name Hname.
    destruct (decide (function_name f = name)) as [->|Hne].
    + rewrite lookup_insert_eq. eauto.
    + by rewrite lookup_insert_ne.
  - unfold ret. apply Hnext, quiet_step_refl.
Qed.

Lemma settled_not_all_completed_tick (s : State) :
  settled s -> snapshot_covers s ->
  exists s',
    quiet_step s s'
    /\ tick s = (if _all_functions_completed s
                 then Err (StopMonitoring "All functions completed") s'
                 else Ok tt s').
Proof.
  intros Hsettled Hcovers.
  destruct (monitor_functions_settled (seq 0 (length (_functions s))) s
              Hsettled Hcovers) as (s1 & Hloop & Hq).
  { apply Forall_forall. intros i Hi%elem_of_seq. lia. }
  unfold tick, _monitor_workflow_execution, all_indices, bind at 1, gets.
  unfold bind at 1. rewrite Hloop. unfold bind at 1.
  assert (Hall : _all_functions_completed s1 = _all_functions_completed s).
  { unfold _all_functions_completed. destruct Hq as (-> & _). done. }
  rewrite Hall. destruct (_all_functions_completed s).
  - eexists. split; [|reflexivity].
    eapply quiet_step_trans; [exact Hq|]. by repeat split.
  - exists s1. done.
Qed.

Lemma completed_is_settled (s : State) :
  _all_functions_completed s = true ->
  settled s /\ finalize (_shutdown_requested s) <$> _functions s = _functions s.
Proof.
  unfold _all_functions_completed. intros Hall.
  assert (Hfinal : Forall (fun f => has_completed (status f) = true) (_functions s)).
  { apply Forall_forall. intros f Hf%list_elem_of_In.
    exact (proj1 (List.forallb_forall _ _) Hall f Hf). }
  split.
  - eapply Forall_impl; [exact Hfinal|]. intros f Hf. cbv beta in Hf.
    destruct (status f); try discriminate Hf; split; congruence.
  - clear Hall. induction Hfinal as [|f fs Hf _ IH]; [done|].
    rewrite fmap_cons, IH. f_equal. unfold finalize. cbv beta in Hf.
    destruct (has_final_state (status f)) eqn:Hfin; [done|].
    destruct (status f); discriminate.
Qed.

(** X12: when every instance is COMPLETED or NOT_INVOKED and the previous
    snapshot has an entry for each, the next look at the loop ends the
    run with success: the tick raises [StopMonitoring], the finalization
    marks the run complete, and the registry is left exactly as it
    was. *)
Theorem all_completed_ends_the_run
    (sleep : nat -> State -> State) (fuel k : nat) (s : State) :
  _all_functions_completed s = true ->
  snapshot_covers s ->
  (exists s', tick s = Err (StopMonitoring "All functions completed") s'
              /\ _functions s' = _functions s)
  /\ exists s',
       monitoring_loop w tick sleep (S fuel) k s = Finished s'
       /\ _monitoring_complete s' = true
       /\ _functions s' = _functions s.
Proof.
  intros Hall Hcovers.
  destruct (completed_is_settled s Hall) as [Hsettled Hid].
  destruct (settled_not_all_completed_tick s Hsettled Hcovers) as (s1 & Hq & Htick).
  rewrite Hall in Htick. pose proof Hq as (Hf1 & _ & (_ & _ & Hsr & _) & _).
  split; [eauto|].
  cbn [monitoring_loop]. rewrite Htick.
  destruct (negb (_did_timeout w s) && negb (_shutdown_requested s)).
  - destruct (finish_monitoring_spec s1) as (s' & Hrun & Hc & Hf & _).
    exists s'. unfold finish. rewrite Hrun. split; [done|]. split; [done|].
    rewrite Hf, Hf1, Hsr. exact Hid.
  - destruct (finish_monitoring_spec s) as (s' & Hrun & Hc & Hf & _).
    exists s'. unfold finish. rewrite Hrun. split; [done|]. split; [done|].
    rewrite Hf. exact Hid.
Qed.

Lemma quiet_loop_ends (n : nat) :
  (1 <= check_interval w)%Z ->
  forall (fuel k : nat) (s : State),
    settled s -> snapshot_covers s ->
    (Z.to_nat (timeout w - (clock s - last_change_time s)) <= n) ->
    n < fuel ->
    exists s',
      monitoring_loop w tick (quiet_sleep w) fuel k s = Finished s'
      /\ _monitoring_complete s' = true
      /\ _functions s' = finalize (_shutdown_requested s) <$> _functions s.
Proof.
  intros Hinterval. induction n as [|n IH]; intros fuel k s Hsettled Hcovers Hleft Hfuel.
  all: destruct (negb (_did_timeout w s) && negb (_shutdown_requested s)) eqn:Hguard.
  all: try (apply loop_exit_spec;
            apply andb_false_iff in Hguard as [Hg|Hg];
            apply negb_false_iff in Hg; auto).
  all: destruct fuel as [|fuel]; [lia|].
  all: destruct (settled_not_all_completed_tick s Hsettled Hcovers) as (s1 & Hq & Htick).
  all: pose proof Hq as (Hf1 & Hc1 & (Hl1 & Hsec1 & Hsr1 & Hclock1 & _) & Hp1).
  all: cbn [monitoring_loop]; rewrite Hguard, Htick.
  all: destruct (_all_functions_completed s) eqn:Hall;
    [ destruct (finish_monitoring_spec s1) as (s' & Hrun & Hc & Hf & _);
      exists s'; unfold finish; rewrite Hrun; split; [done|]; split; [done|];
      by rewrite Hf, Hf1, Hsr1 | ].
  all: set (s2 := quiet_sleep w k (state_of (_increment_timer s1))).
  all: assert (Hf2 : _functions s2 = _functions s) by (subst s2; simpl; done).
  all: assert (Hsr2 : _shutdown_requested s2 = _shutdown_requested s)
         by (subst s2; simpl; done).
  all: assert (Hsettled2 : settled s2) by (unfold settled; by rewrite Hf2).
  all: assert (Hcovers2 : snapshot_covers s2)
         by (unfold snapshot_covers; rewrite Hf2;
             (eapply Forall_impl; [exact Hcovers|]); intros g; subst s2; simpl;
             apply Hp1).
  - (* no time left: the timer read after this tick has reached the timeout *)
    destruct (loop_exit_spec w tick (quiet_sleep w) fuel (S k) s2)
      as (s' & Hrun & Hc & Hf).
    { right. unfold _did_timeout. apply Z.leb_le. subst s2. simpl.
      rewrite Hclock1, Hl1. lia. }
    exists s'. split; [exact Hrun|]. split; [exact Hc|]. by rewrite Hf, Hf2, Hsr2.
  - destruct (IH fuel (S k) s2 Hsettled2 Hcovers2) as (s' & Hrun & Hc & Hf).
    { subst s2. simpl. rewrite Hclock1, Hl1. lia. }
    { lia. }
    exists s'. split; [exact Hrun|]. split; [exact Hc|]. by rewrite Hf, Hf2, Hsr2.
Qed.

(** X13: a run in which nothing happens times out.  When no instance is
    pending or failed, the previous snapshot has an entry for each, the
    check interval is at least one second and the other threads do
    nothing, the monitoring thread ends by itself after at most
    [timeout + 1] ticks: it returns from the finalization with the run
    marked complete, the final statuses kept and every other instance set
    to TIMEOUT (SKIPPED if a shutdown had been requested). *)
Theorem quiet_run_times_out (fuel : nat) (s : State) :
  (1 <= check_interval w)%Z ->
  settled s ->
  snapshot_covers s ->
  Z.to_nat (timeout w) < fuel ->
  exists s',
    _start_monitoring w tick (quiet_sleep w) fuel s = Finished s'
    /\ _monitoring_complete s' = true
    /\ _functions s' = finalize (_shutdown_requested s) <$> _functions s.
Proof.
  intros Hinterval Hsettled Hcovers Hfuel. unfold _start_monitoring.
  set (s0 := state_of (bind (info Monitoring_workflow_execution)
                         (fun _ => _reset_timer) s)).
  apply (quiet_loop_ends (Z.to_nat (timeout w)) Hinterval fuel 0 s0); try done.
  subst s0. simpl. lia.
Qed.

End QuietTicks.

Section QuietWitnesses.
  Import WorkflowRunner Finalization RunnerScenarios.

Lemma all_completed_ends_the_run_witness :
  let s := snapshot
             [ {| function_name := "f"; status := FunctionStatus.COMPLETED;
                  invocations := Some ∅ |} ] 0 in
  _all_functions_completed s = true
  /\ exists s',
       monitoring_loop single_workflow
         (_monitor_workflow_execution (in_order []) single_workflow)
         (quiet_sleep single_workflow) 1 0 s = Finished s'
       /\ _monitoring_complete s' = true
       /\ _functions s' = _functions s.
Proof.
  intros s. split; [reflexivity|].
  assert (Hcovers : snapshot_covers s).
  { apply List.Forall_cons; [|apply List.Forall_nil].
    eexists. vm_compute. reflexivity. }
  exact (proj2 (all_completed_ends_the_run (in_order []) single_workflow
                  (quiet_sleep single_workflow) 0 0 s eq_refl Hcovers)).
Defined.

Lemma quiet_run_times_out_witness :
  let s := snapshot running_functions 0 in
  (1 <= check_interval single_workflow)%Z
  /\ Z.to_nat (timeout single_workflow) < 11
  /\ exists s',
       _start_monitoring single_workflow
         (_monitor_workflow_execution (in_order []) single_workflow)
         (quiet_sleep single_workflow) 11 s = Finished s'
       /\ _monitoring_complete s' = true
       /\ status <$> _functions s' = [FunctionStatus.TIMEOUT].
Proof.
  intros s. split; [simpl; lia|]. split; [simpl; lia|].
  assert (Hsettled : settled s) by (repeat constructor; done).
  assert (Hcovers : snapshot_covers s).
  { apply List.Forall_cons; [|apply List.Forall_nil].
    eexists. vm_compute. reflexivity. }
  destruct (quiet_run_times_out (in_order []) single_workflow 11 s)
    as (s' & Hrun & Hc & Hf); [simpl; lia|exact Hsettled|exact Hcovers|simpl; lia|].
  exists s'. split; [exact Hrun|]. split; [exact Hc|]. rewrite Hf. reflexivity.
Defined.

End QuietWitnesses.

Section Registry.
  Import WorkflowRunner LoggerViews.

Variable w : Workflow.

Let names (fs : list FaaSrFunction) : list string := function_name <$> fs.

Lemma dict_set_names (f : FaaSrFunction) (fs : list FaaSrFunction) :
  names (dict_set f fs)
  = if decide (function_name f ∈ names fs) then names fs
    else (names fs ++ [function_name f])%list.
Proof.
  unfold names. induction fs as [|g rest IH].
  - destruct (decide (function_name f ∈ function_name <$> [])) as [Hin|_];
      [by apply elem_of_nil in Hin|done].
  - cbn [dict_set]. destruct (decide (function_name g = function_name f)) as [Heq|Hne].
    + rewrite !fmap_cons, Heq.
      rewrite decide_True by apply list_elem_of_here. done.
    + rewrite !fmap_cons, IH.
      destruct (decide (function_name f ∈ function_name <$> rest)) as [Hin|Hnin].
      * rewrite decide_True by (by apply list_elem_of_further). done.
      * rewrite decide_False; [done|].
        intros [?|?]%elem_of_cons; congruence.
Qed.

Lemma dict_set_keeps (P : FaaSrFunction -> Prop) (f : FaaSrFunction)
    (fs : list FaaSrFunction) :
  P f -> Forall P fs -> Forall P (dict_set f fs).
Proof.
  intros Hf Hfs. induction Hfs as [|g fs Hg Hfs IH]; simpl.
  - by constructor.
  - destruct (decide (function_name g = function_name f)); constructor; auto.
Qed.

Lemma build_function_fresh (rank : string) :
  exists f, build_function w rank = Value f
            /\ function_name f = rank /\ invocations f = None.
Proof.
  unfold build_function, set_status. simpl.
  destruct (decide (extract_function_name rank = workflow_invoke w));
    eexists; (split; [reflexivity|]); done.
Qed.

Lemma build_all_registry (ranks : list string) (fs : list FaaSrFunction) :
  NoDup (names fs) ->
  Forall (fun f => invocations f = None) fs ->
  exists fs',
    build_all w ranks fs = Value fs'
    /\ NoDup (names fs')
    /\ Forall (fun f => invocations f = None) fs'
    /\ forall name, name ∈ names fs' <-> name ∈ names fs \/ name ∈ ranks.
Proof.
  revert fs. induction ranks as [|rank rest IH]; intros fs Hnodup Hfresh; simpl.
  - exists fs. split; [done|]. split; [done|]. split; [done|].
    intros name. rewrite elem_of_nil. tauto.
  - destruct (build_function_fresh rank) as (f & -> & Hname & Hinv).
    destruct (IH (dict_set f fs)) as (fs' & Hbuild & Hnd & Hfr & Hin).
    + rewrite dict_set_names. destruct (decide (function_name f ∈ names fs)); [done|].
      apply NoDup_app. split; [done|]. split; [|apply NoDup_singleton].
      intros x Hx ->%list_elem_of_singleton. done.
    + by apply dict_set_keeps.
    + exists fs'. split; [done|]. split; [done|]. split; [done|].
      intros name. rewrite Hin, dict_set_names, Hname.
      destruct (decide (rank ∈ names fs)); set_solver.
Qed.

Lemma statuses_snoc (fs : list FaaSrFunction) (f : FaaSrFunction) :
  get_function_statuses (fs ++ [f])
  = <[function_name f := status f]> (get_function_statuses fs).
Proof. unfold get_function_statuses. by rewrite foldl_app. Qed.

Lemma statuses_lookup (fs : list FaaSrFunction) :
  NoDup (names fs) ->
  (forall f, f ∈ fs -> get_function_statuses fs !! function_name f = Some (status f))
  /\ (forall name, is_Some (get_function_statuses fs !! name) -> name ∈ names fs).
Proof.
  unfold names. induction fs as [|g fs IH] using rev_ind.
  - intros _. split; [intros f Hf; by apply elem_of_nil in Hf|].
    intros name [st Hst]. unfold get_function_statuses in Hst. simpl in Hst.
    by rewrite lookup_empty in Hst.
  - rewrite fmap_app. intros (Hnd & Hdisj & _)%NoDup_app.
    destruct (IH Hnd) as [IHin IHdom]. rewrite statuses_snoc. split.
    + intros f [Hf| ->%list_elem_of_singleton]%elem_of_app.
      * rewrite lookup_insert_ne; [by apply IHin|].
        intros Heq. apply (Hdisj (function_name f)).
        -- by apply list_elem_of_fmap_2.
        -- rewrite <- Heq. simpl. apply list_elem_of_here.
      * apply lookup_insert_eq.
    + intros name. destruct (decide (function_name g = name)) as [<-|Hne].
      * intros _. apply elem_of_app. right. simpl. apply list_elem_of_here.
      * rewrite lookup_insert_ne by done. intros Hsome.
        apply elem_of_app. left. by apply IHdom.
Qed.

(** X14: [_start] always succeeds, and the registry it builds has exactly
    one instance for every instance name that [_iter_ranks] produces for
    the functions of the action list, each without invocations yet; the
    previous snapshot it takes has an entry for every instance, equal to
    the status of the instance, and no other entry. *)
Theorem start_builds_registry_and_snapshot (now : Z) :
  exists s0,
    _start w now = Value s0
    /\ NoDup (function_name <$> _functions s0)
    /\ (forall name,
          name ∈ (function_name <$> _functions s0) <->
          name ∈ concat (_iter_ranks w <$> function_names w))
    /\ (forall f,
          f ∈ _functions s0 ->
          invocations f = None
          /\ _prev_statuses s0 !! function_name f = Some (status f))
    /\ (forall name,
          is_Some (_prev_statuses s0 !! name) ->
          name ∈ (function_name <$> _functions s0))
    /\ _monitoring_complete s0 = false
    /\ _shutdown_requested s0 = false.
Proof.
  unfold _start, _build_functions.
  destruct (build_all_registry (concat (_iter_ranks w <$> function_names w)) [])
    as (fs & -> & Hnd & Hfresh & Hin); [constructor|constructor|].
  destruct (statuses_lookup fs Hnd) as [Hlookup Hdom].
  eexists. split; [reflexivity|]. simpl.
  split; [exact Hnd|]. split.
  { intros name. destruct (Hin name) as [H1 H2]. split.
    - intros Hn. destruct (H1 Hn) as [Hnil|Hr]; [by apply elem_of_nil in Hnil|done].
    - intros Hn. apply H2. by right. }
  split.
  { intros f Hf. split; [|by apply Hlookup].
    eapply Forall_forall in Hfresh; eauto. }
  split; [exact Hdom|]. done.
Qed.

Lemma extract_function_name_rank (name suffix : string) :
  "("%char ∉ chars name ->
  extract_function_name (name ++ String "("%char suffix) = name
  /\ extract_function_name name = name.
Proof.
  induction name as [|c name IH]; simpl.
  - done.
  - intros Hnot. apply not_elem_of_cons in Hnot as [Hc Hname].
    destruct (Ascii.eqb_spec c "("%char) as [->|_]; [done|].
    destruct (IH Hname) as [-> ->]. done.
Qed.

Lemma app_close_inj (a b : string) : (a ++ ")" = b ++ ")")%string -> a = b.
Proof.
  revert b. induction a as [|c a IH]; intros [|d b]; simpl; try done.
  - intros [= -> Hb]. by destruct b.
  - intros [= -> Ha]. by destruct a.
  - intros [= -> Hab]. f_equal. by apply IH.
Qed.

Lemma rank_name_inj (name : string) (r1 r2 : Z) :
  (name ++ "(" ++ pretty r1 ++ ")" = name ++ "(" ++ pretty r2 ++ ")")%string -> r1 = r2.
Proof.
  intros H. apply (inj (String.app name)) in H. simpl in H.
  injection H as H. apply app_close_inj in H. by apply (inj pretty) in H.
Qed.

Lemma range1_spec (n r : Z) : r ∈ range1 n <-> (1 <= r <= n)%Z.
Proof.
  unfold range1. rewrite list_elem_of_fmap. split.
  - intros (k & -> & Hk%elem_of_seq). lia.
  - intros Hr. exists (Z.to_nat (r - 1)). split; [lia|].
    apply elem_of_seq. lia.
Qed.

Lemma range1_NoDup (n : Z) : NoDup (range1 n).
Proof.
  unfold range1. apply NoDup_fmap_2; [|apply NoDup_seq].
  intros a b. lia.
Qed.

(** X15: [_iter_ranks] produces the function name alone when the rank
    count is at most 1, and otherwise the names [name(1)] .. [name(R)],
    one for every rank and all different; when the function name holds
    no opening parenthesis, [extract_function_name] gives the function
    name back from every instance name. *)
Theorem iter_ranks_contract (name : string) :
  ((ranks w name <= 1)%Z -> _iter_ranks w name = [name])
  /\ ((1 < ranks w name)%Z ->
      forall instance,
        instance ∈ _iter_ranks w name <->
        exists r, (1 <= r <= ranks w name)%Z
                  /\ instance = (name ++ "(" ++ pretty r ++ ")")%string)
  /\ length (_iter_ranks w name) = Z.to_nat (Z.max 1 (ranks w name))
  /\ NoDup (_iter_ranks w name)
  /\ ("("%char ∉ chars name ->
      Forall (fun instance => extract_function_name instance = name)
             (_iter_ranks w name)).
Proof.
  unfold _iter_ranks.
  destruct (Z.leb_spec (ranks w name) 1) as [Hle|Hgt].
  - split; [done|]. split; [lia|]. split; [simpl; lia|].
    split; [apply NoDup_singleton|].
    intros Hname. constructor; [|constructor].
    by apply (extract_function_name_rank name EmptyString).
  - split; [lia|]. split.
    { intros _ instance. rewrite list_elem_of_fmap.
      split; intros (r & Hr1 & Hr2); exists r.
      - by apply range1_spec in Hr2.
      - split; [tauto|]. apply range1_spec. tauto. }
    split.
    { rewrite length_fmap. unfold range1. rewrite length_fmap, length_seq. lia. }
    split.
    { apply NoDup_fmap_2; [|apply range1_NoDup].
      intros r1 r2. apply rank_name_inj. }
    intros Hname. apply Forall_fmap, Forall_forall. intros r _. simpl.
    by apply (extract_function_name_rank name).
Qed.

End Registry.

Section ResolverTable.
  Import WorkflowRunner Finalization.

Variable set_iter : gset string -> list string.
Variable w : Workflow.

(** X16: what the resolver answers, from the instance names it is given
    to examine.  With no invoker it answers NOT_INVOKED; when the first
    instance is not in the registry the lookup raises [KeyError];
    otherwise the first instance decides: PENDING while its invocations
    are unknown, INVOKED when they hold the base name of the function,
    NOT_INVOKED when they do not.  The call changes nothing but the
    record of the names submitted. *)
Theorem resolver_decision_table (function : FaaSrFunction) (s : State) :
  let recorded := set_submitted (submitted s ++ [function_name function]) s in
  (invoker_ranks set_iter w function = [] ->
     _check_invocation_status set_iter w function s
       = Ok InvocationStatus.NOT_INVOKED recorded)
  /\ (forall rank rest,
        invoker_ranks set_iter w function = rank :: rest ->
        lookup_function rank (_functions s) = None ->
        _check_invocation_status set_iter w function s = Err (KeyError rank) recorded)
  /\ (forall rank rest invoker,
        invoker_ranks set_iter w function = rank :: rest ->
        lookup_function rank (_functions s) = Some invoker ->
        _check_invocation_status set_iter w function s
          = Ok (match invocations invoker with
                | None => InvocationStatus.PENDING
                | Some invoked =>
                    if decide (extract_function_name (function_name function) ∈ invoked)
                    then InvocationStatus.INVOKED
                    else InvocationStatus.NOT_INVOKED
                end) recorded).
Proof.
  intros recorded. unfold _check_invocation_status. split; [|split].
  - intros ->. reflexivity.
  - intros rank rest -> Hlookup. simpl. rewrite Hlookup. reflexivity.
  - intros rank rest invoker -> Hlookup. simpl. rewrite Hlookup.
    unfold _get_invocation_status.
    destruct (invocations invoker) as [invoked|]; [|reflexivity].
    destruct (decide (extract_function_name (function_name function) ∈ invoked));
      reflexivity.
Qed.

(** X17: handling a pending instance commits the resolver's answer and
    nothing else: on INVOKED or NOT_INVOKED the instance gets that status
    and all the other instances are as before; on PENDING the registry is
    unchanged; and when the resolver raises, the exception leaves with
    the registry unchanged.  [set_status] is never refused here. *)
Theorem handle_pending_commits (i : nat) (f : FaaSrFunction) (s : State) :
  _functions s !! i = Some f ->
  status f = FunctionStatus.PENDING ->
  match check_ranks (_functions s) f (invoker_ranks set_iter w f) with
  | Value InvocationStatus.INVOKED =>
      exists s', _handle_pending set_iter w i s = Ok tt s'
                 /\ _functions s'
                    = <[i := with_status FunctionStatus.INVOKED f]> (_functions s)
  | Value InvocationStatus.NOT_INVOKED =>
      exists s', _handle_pending set_iter w i s = Ok tt s'
                 /\ _functions s'
                    = <[i := with_status FunctionStatus.NOT_INVOKED f]> (_functions s)
  | Value InvocationStatus.PENDING =>
      exists s', _handle_pending set_iter w i s = Ok tt s'
                 /\ _functions s' = _functions s
  | Raises e =>
      exists s', _handle_pending set_iter w i s = Err e s'
                 /\ _functions s' = _functions s
  end.
Proof.
  intros Hi Hpending. unfold _handle_pending, bind, function_at. rewrite Hi.
  unfold _check_invocation_status.
  destruct (check_ranks (_functions s) f (invoker_ranks set_iter w f)) as [[]|e];
    simpl; try (eexists; split; reflexivity).
  all: unfold set_status_at, bind, function_at; simpl; rewrite Hi;
    unfold set_status; rewrite Hpending; simpl; eexists; split; reflexivity.
Qed.

End ResolverTable.

Section ResolverWitness.
  Import WorkflowRunner RunnerScenarios.

Lemma handle_pending_commits_witness :
  _functions merge_state !! 3 = Some merge_c
  /\ status merge_c = FunctionStatus.PENDING
  /\ exists s',
       _handle_pending (in_order ["a"; "b"]) merge_workflow 3 merge_state = Ok tt s'
       /\ _functions s'
          = <[3 := with_status FunctionStatus.INVOKED merge_c]> (_functions merge_state).
Proof.
  split; [reflexivity|]. split; [reflexivity|].
  pose proof (handle_pending_commits (in_order ["a"; "b"]) merge_workflow 3 merge_c
                merge_state eq_refl eq_refl) as H.
  assert (Hc : check_ranks (_functions merge_state) merge_c
                 (invoker_ranks (in_order ["a"; "b"]) merge_workflow merge_c)
               = Value InvocationStatus.INVOKED) by (by vm_compute).
  rewrite Hc in H. exact H.
Defined.

End ResolverWitness.

Section TickWrites.
  Import WorkflowRunner Finalization.

Variable set_iter : gset string -> list string.
Variable w : Workflow.

Let writes (s s' : State) : Prop :=
  Forall2 tick_writes (_functions s) (_functions s').

Lemma tick_writes_refl (f : FaaSrFunction) : tick_writes f f.
Proof. unfold tick_writes. auto. Qed.

Lemma tick_writes_trans (f g h : FaaSrFunction) :
  tick_writes f g -> tick_writes g h -> tick_writes f h.
Proof.
  unfold tick_writes. intros (Hn1 & Hi1 & H1) (Hn2 & Hi2 & H2).
  split; [congruence|]. split; [congruence|].
  destruct H1 as [H1|[[Hp1 H1]|[Hf1 H1]]], H2 as [H2|[[Hp2 H2]|[Hf2 H2]]].
  - left. congruence.
  - right. left. split; [congruence|done].
  - right. right. split; [congruence|done].
  - right. left. split; [done|]. destruct H1; [left|right]; congruence.
  - destruct H1; congruence.
  - right. right. split; [by rewrite Hp1|done].
  - right. right. split; [done|congruence].
  - congruence.
  - rewrite H1 in Hf2. discriminate.
Qed.

Lemma writes_refl (s : State) : writes s s.
Proof.
  unfold writes. induction (_functions s); constructor; auto using tick_writes_refl.
Qed.

Lemma writes_frame (s s' : State) : _functions s' = _functions s -> writes s s'.
Proof. intros Hf. pose proof (writes_refl s) as H. unfold writes in *. by rewrite Hf. Qed.

Lemma writes_trans (s1 s2 s3 : State) : writes s1 s2 -> writes s2 s3 -> writes s1 s3.
Proof.
  unfold writes. generalize (_functions s1), (_functions s2), (_functions s3).
  intros l1 l2 l3 H12. revert l3.
  induction H12 as [|f g l1 l2 Hfg _ IH]; intros l3 H23.
  - inversion H23. constructor.
  - inversion H23 as [|g' h l2' l3' Hgh Hrest]; subst.
    constructor; eauto using tick_writes_trans.
Qed.

Lemma writes_bind {A B} (m : M A) (k : A -> M B) (s : State) :
  writes s (state_of (m s)) ->
  (forall a s', m s = Ok a s' -> writes s' (state_of (k a s'))) ->
  writes s (state_of (bind m k s)).
Proof.
  unfold bind. intros Hm Hk.
  destruct (m s) as [a s'|e s'] eqn:Hms; simpl in *; [|done].
  eapply writes_trans; eauto.
Qed.

Lemma writes_function_at (i : nat) (s : State) : writes s (state_of (function_at i s)).
Proof. unfold function_at. destruct (_functions s !! i); apply writes_refl. Qed.

Lemma writes_set_status (i : nat) (st : FunctionStatus.t) (s : State) :
  (forall f, _functions s !! i = Some f ->
             has_final_state (status f) = false ->
             tick_writes f (with_status st f)) ->
  writes s (state_of (set_status_at i st s)).
Proof.
  intros Hallowed. unfold set_status_at, bind, function_at.
  destruct (_functions s !! i) as [f|] eqn:Hi; simpl; [|apply writes_refl].
  unfold set_status. destruct (has_final_state (status f)) eqn:Hfinal; simpl;
    [apply writes_refl|].
  unfold writes. simpl.
  rewrite <- (list_insert_id (_functions s) i f) at 1 by done.
  apply Forall2_insert; [apply writes_refl|]. by apply Hallowed.
Qed.

Lemma writes_skip (i : nat) (s : State) :
  writes s (state_of (set_status_at i FunctionStatus.SKIPPED s)).
Proof.
  apply writes_set_status. intros f _ Hfinal.
  split; [done|]. split; [done|]. right. right. done.
Qed.

Lemma writes_handle_pending (i : nat) (f : FaaSrFunction) (s : State) :
  _functions s !! i = Some f -> status f = FunctionStatus.PENDING ->
  writes s (state_of (_handle_pending set_iter w i s)).
Proof.
  intros Hi Hp. unfold _handle_pending.
  apply writes_bind; [apply writes_function_at|].
  intros f' s' [-> Hf']%function_at_inv.
  apply writes_bind.
  { rewrite check_invocation_status_state. by apply writes_frame. }
  intros st s1 Hcheck.
  assert (Hs1 : s1 = set_submitted (submitted s ++ [function_name f']) s).
  { rewrite <- (check_invocation_status_state set_iter w), Hcheck. reflexivity. }
  assert (Hdecide : forall st',
             st' = FunctionStatus.INVOKED \/ st' = FunctionStatus.NOT_INVOKED ->
             writes s1 (state_of (bind _reset_timer
                                    (fun _ => set_status_at i st') s1))).
  { intros st' Hst'. apply writes_bind; [by apply writes_frame|].
    intros [] s2 Hs2. apply writes_set_status.
    assert (Hf2 : _functions s2 = _functions s).
    { unfold _reset_timer in Hs2. injection Hs2 as Hs2. rewrite <- Hs2, Hs1. reflexivity. }
    rewrite Hf2. clear Hs2 Hf2. intros g Hg _. assert (g = f) as -> by congruence.
    split; [done|]. split; [done|]. right. left. done. }
  destruct st; [apply writes_refl| |]; apply Hdecide; auto.
Qed.

Lemma writes_monitor_functions (indices : list nat) (s : State) :
  writes s (state_of (monitor_functions set_iter w indices s)).
Proof.
  revert s. induction indices as [|i rest IH]; intros s; simpl.
  - apply writes_refl.
  - apply writes_bind; [apply writes_function_at|].
    intros f s1 [-> Hf]%function_at_inv.
    apply writes_bind.
    { unfold when, pending. case_bool_decide as Hp.
      - eapply writes_handle_pending; eauto.
      - apply writes_refl. }
    intros _ s2 _.
    apply writes_bind; [apply writes_function_at|]. intros f2 s3 _.
    apply writes_bind.
    { unfold prev_status. destruct (_prev_statuses s3 !! function_name f2);
        apply writes_refl. }
    intros prev s4 _.
    apply writes_bind.
    { unfold when. destruct (bool_decide (prev ≠ status f2)); [|apply writes_refl].
      apply writes_bind.
      - destruct (log_status_change_quiet f2 s4) as (s5 & -> & (Hf5 & _) & _).
        by apply writes_frame.
      - intros _ s5 _. by apply writes_frame. }
    intros _ s5 _.
    destruct (failed (status f2)); [apply writes_refl|apply IH].
Qed.

Lemma writes_cascade_failure (s : State) :
  writes s (state_of (_cascade_failure s)).
Proof.
  unfold _cascade_failure.
  apply writes_bind; [apply writes_refl|].
  intros indices s1 _. clear s. revert s1.
  induction indices as [|i rest IH]; intros s; simpl; [apply writes_refl|].
  apply writes_bind; [|intros _ s' _; apply IH].
  unfold cascade_function.
  apply writes_bind; [apply writes_function_at|]. intros f s1 _.
  destruct (negb (has_completed (status f))); [|apply writes_refl].
  apply writes_bind; [apply writes_skip|].
  intros _ s2 _. by apply writes_frame.
Qed.

(** X18: what a tick may write.  Whatever it ends with, a tick keeps the
    number, the order, the names and the invocations of the instances,
    and it changes a status only from PENDING to INVOKED or NOT_INVOKED,
    or from a status that is not final to SKIPPED; it never sets RUNNING,
    COMPLETED, FAILED, TIMEOUT or PENDING. *)
Theorem tick_writes_only_resolutions_and_skips (s : State) :
  Forall2
    (fun f f' =>
       function_name f' = function_name f
       /\ invocations f' = invocations f
       /\ (status f' = status f
           \/ (status f = FunctionStatus.PENDING
               /\ (status f' = FunctionStatus.INVOKED
                   \/ status f' = FunctionStatus.NOT_INVOKED))
           \/ (has_final_state (status f) = false
               /\ status f' = FunctionStatus.SKIPPED)))
    (_functions s)
    (_functions (state_of (_monitor_workflow_execution set_iter w s))).
Proof.
  change (writes s (state_of (_monitor_workflow_execution set_iter w s))).
  unfold _monitor_workflow_execution.
  apply writes_bind; [apply writes_refl|]. intros indices s1 _.
  apply writes_bind; [apply writes_monitor_functions|].
  intros workflow_failed s2 _.
  apply writes_bind; [apply writes_refl|]. intros all_completed s3 _.
  destruct all_completed.
  - apply writes_bind; [by apply writes_frame|]. intros _ s4 _. apply writes_refl.
  - destruct workflow_failed; [|apply writes_refl].
    apply writes_bind; [apply writes_cascade_failure|]. intros _ s4 _.
    apply writes_refl.
Qed.

End TickWrites.

Section ReverseGraphKeys.
  Import WorkflowRunner.

Lemma add_invoker_nonempty (invoker function : string) (rev : gmap string (gset string)) :
  map_Forall (fun _ invokers => invokers <> ∅) rev ->
  map_Forall (fun _ invokers => invokers <> ∅) (add_invoker invoker rev function).
Proof.
  intros Hrev. unfold add_invoker. apply map_Forall_insert_2; [set_solver|done].
Qed.

(** X19: the reverse graph has no key with an empty set: a node is a key
    only because some node invokes it, so the nodes without invokers are
    exactly those the runner reads with the default of the
    [defaultdict]; and an empty forward graph gives an empty reverse
    graph. *)
Theorem reverse_graph_has_no_empty_entry (adj : gmap string (list string)) :
  map_Forall (fun _ invokers => invokers <> ∅) (_build_reverse_adjacency_graph adj)
  /\ (forall function,
        _build_reverse_adjacency_graph adj !! function = None <->
        forall invoker, function ∉ default [] (adj !! invoker))
  /\ _build_reverse_adjacency_graph ∅ = ∅.
Proof.
  split; [|split].
  - unfold _build_reverse_adjacency_graph.
    apply (map_fold_weak_ind
             (fun rev (_ : gmap string (list string)) =>
                map_Forall (fun _ invokers => invokers <> ∅) rev)).
    + apply map_Forall_empty.
    + intros invoker functions m rev _ Hrev. revert rev Hrev.
      induction functions as [|f fs IH]; intros rev Hrev; simpl; [done|].
      apply IH. by apply add_invoker_nonempty.
  - intros function.
    assert (Hsem : forall rev : gmap string (gset string),
               map_Forall (fun _ invokers => invokers <> ∅) rev ->
               rev !! function = None <->
               forall invoker, invoker ∉ default ∅ (rev !! function)).
    { intros rev Hrev. destruct (rev !! function) as [invokers|] eqn:Hlookup; simpl.
      - split; [discriminate|]. intros Hnone. exfalso.
        apply (Hrev _ _ Hlookup). set_solver.
      - split; [set_solver|done]. }
    rewrite Hsem.
    + unfold _build_reverse_adjacency_graph.
      enough (Hinv : forall invoker,
                 invoker ∈ default ∅ (map_fold (fun invoker invoked_functions rev =>
                     foldl (add_invoker invoker) rev invoked_functions) ∅ adj !! function)
                 <-> function ∈ default [] (adj !! invoker)).
      { split; intros H invoker Hin; apply (H invoker); by apply Hinv. }
      apply (map_fold_weak_ind
               (fun rev (m : gmap string (list string)) =>
                  forall u, u ∈ default ∅ (rev !! function)
                            <-> function ∈ default [] (m !! u))).
      * intros u. rewrite !lookup_empty. simpl. set_solver.
      * intros i x m r Hfresh IH u.
        rewrite foldl_add_invoker_spec, IH.
        destruct (decide (i = u)) as [->|Hne].
        -- rewrite lookup_insert_eq, Hfresh. simpl. set_solver.
        -- rewrite lookup_insert_ne by done. naive_solver.
    + unfold _build_reverse_adjacency_graph.
      apply (map_fold_weak_ind
               (fun rev (_ : gmap string (list string)) =>
                  map_Forall (fun _ invokers => invokers <> ∅) rev)).
      * apply map_Forall_empty.
      * intros invoker functions m rev _ Hrev. revert rev Hrev.
        induction functions as [|f fs IH]; intros rev Hrev; simpl; [done|].
        apply IH. by apply add_invoker_nonempty.
  - unfold _build_reverse_adjacency_graph. apply map_fold_empty.
Qed.

End ReverseGraphKeys.

Section WaitAfterFinish.
  Import WorkflowRunner Tester Finalization.

Lemma statuses_lookup_last (fs : list FaaSrFunction) (name : string) :
  name ∈ function_name <$> fs ->
  exists g, g ∈ fs /\ function_name g = name
            /\ get_function_statuses fs !! name = Some (status g).
Proof.
  induction fs as [|g fs IH] using rev_ind.
  - intros H. by apply elem_of_nil in H.
  - rewrite fmap_app, statuses_snoc. intros Hin.
    destruct (decide (function_name g = name)) as [<-|Hne].
    + exists g. split; [apply elem_of_app; right; apply list_elem_of_here|].
      split; [done|]. apply lookup_insert_eq.
    + apply elem_of_app in Hin as [Hin|Hin].
      * destruct (IH Hin) as (h & Hh & Hname & Hlookup).
        exists h. split; [apply elem_of_app; by left|]. split; [done|].
        by rewrite lookup_insert_ne.
      * simpl in Hin. apply list_elem_of_singleton in Hin. congruence.
Qed.

(** X20: the monitor's finalization and the tester's wait compose: once
    [_finish_monitoring] has run, [wait_for] on the name of any
    registered instance decides on the first snapshot it reads, whatever
    the later ones are: it does not sleep and does not raise [KeyError],
    and what it returns or raises is the final status of an instance of
    that name. *)
Theorem wait_for_after_finish_never_blocks
    (s : State) (f : FaaSrFunction) (later : list (gmap string FunctionStatus.t)) :
  f ∈ _functions s ->
  exists s' g,
    _finish_monitoring s = Ok tt s'
    /\ g ∈ _functions s' /\ function_name g = function_name f
    /\ has_final_state (status g) = true
    /\ wait_for (function_name f) (get_function_statuses (_functions s') :: later)
       = match status g with
         | FunctionStatus.FAILED => Function_failed_exception
         | FunctionStatus.SKIPPED => Function_skipped_exception
         | FunctionStatus.TIMEOUT => Function_timed_out_exception
         | status => Returns status
         end.
Proof.
  intros Hf.
  destruct (finish_monitoring_spec s) as (s' & Hrun & _ & Hfs & _).
  assert (Hname : function_name f ∈ function_name <$> _functions s').
  { rewrite Hfs. apply list_elem_of_fmap.
    exists (finalize (_shutdown_requested s) f). split.
    - unfold finalize. by destruct (has_final_state (status f)).
    - by apply list_elem_of_fmap_2. }
  destruct (statuses_lookup_last _ _ Hname) as (g & Hg & Hgname & Hlookup).
  assert (Hfinal : has_final_state (status g) = true).
  { rewrite Hfs in Hg. apply list_elem_of_fmap in Hg as (g0 & -> & _).
    apply finalize_is_final. }
  exists s', g. split; [done|]. split; [done|]. split; [done|]. split; [done|].
  simpl. rewrite Hlookup. by destruct (status g).
Qed.

End WaitAfterFinish.

Section WaitAfterFinishWitness.
  Import WorkflowRunner Tester Finalization RunnerScenarios.

Lemma wait_for_after_finish_never_blocks_witness :
  exists s' g,
    _finish_monitoring merge_state = Ok tt s'
    /\ g ∈ _functions s' /\ function_name g = function_name merge_c
    /\ has_final_state (status g) = true
    /\ wait_for (function_name merge_c) (get_function_statuses (_functions s') :: [])
       = match status g with
         | FunctionStatus.FAILED => Function_failed_exception
         | FunctionStatus.SKIPPED => Function_skipped_exception
         | FunctionStatus.TIMEOUT => Function_timed_out_exception
         | status => Returns status
         end.
Proof.
  apply (wait_for_after_finish_never_blocks merge_state merge_c []).
  apply (list_elem_of_lookup_2 _ 3). reflexivity.
Defined.

End WaitAfterFinishWitness.
